(** * Bosonic environments of open quantum systems

    A shallow embedding of [qutip/core/environment.py]: the environment
    classes with their spectral densities, power spectra and correlation
    functions, the interpolation helpers, and the bath classes that turn
    fit parameters into exponent lists.

    Conventions of the embedding.
    - A Python [float] is a real number ([R]) and a Python [complex] a pair
      of reals ([C]); arithmetic is exact.  Rounding, overflow, signed
      zeros and the IEEE special values are outside the model; division is
      the total division of [R].  Only the module [Entries] follows the
      [inf] and [nan] of a numpy division by zero, as entries [None].
    - A one-dimensional numpy array is a [list]; a ufunc or a vectorised
      callable applied to an array is [map] of the scalar function.
    - A [raise] statement of the source, a failed tuple unpacking, an
      index out of range and a division of Python floats by zero are values
      [inl e] of [result].  A division in which an operand is a numpy
      value does not raise and is the total division of [R].
    - Functions of other modules ([n_thermal], [interp1d], [aaa],
      [filter_poles], [UnderDampedBath._matsubara_params]) are section
      variables; [interp1d] can raise.
    - The [tag] of an environment and the [combine] and [tag] arguments of
      a bath are passed through unexamined and left out. *)

From Stdlib Require Import Reals Lra Lia List String Bool DecimalString.
Import ListNotations.

Open Scope R_scope.

(** * Part I: the embedding *)

(** ** Complex numbers *)

Record C : Set := Cx { re : R; im : R }.

Declare Scope complex_scope.
Delimit Scope complex_scope with C.
Bind Scope complex_scope with C.

(** A real operand of a mixed operation is promoted to a complex number. *)
Definition RtoC (x : R) : C := Cx x 0.

(** The imaginary literal [yj]. *)
Definition Cj (y : R) : C := Cx 0 y.

Definition Cadd (z w : C) : C := Cx (re z + re w) (im z + im w).
Definition Copp (z : C) : C := Cx (- re z) (- im z).
Definition Csub (z w : C) : C := Cx (re z - re w) (im z - im w).
Definition Cmul (z w : C) : C :=
  Cx (re z * re w - im z * im w) (re z * im w + im z * re w).
Definition Cdiv (z w : C) : C :=
  let d := re w * re w + im w * im w in
  Cx ((re z * re w + im z * im w) / d) ((im z * re w - re z * im w) / d).

(** [np.conj], [np.conjugate] *)
Definition Cconj (z : C) : C := Cx (re z) (- im z).

(** [abs] of a complex number *)
Definition Cmod (z : C) : R := sqrt (re z * re z + im z * im z).

(** [np.sqrt] on a complex number: the principal square root, with the
    branch cut along the negative real axis. *)
Definition Csqrt (z : C) : C :=
  let r := Cmod z in
  Cx (sqrt ((r + re z) / 2))
     ((if Rlt_dec (im z) 0 then -1 else 1) * sqrt ((r - re z) / 2)).

Notation "z + w" := (Cadd z w) : complex_scope.
Notation "z - w" := (Csub z w) : complex_scope.
Notation "z * w" := (Cmul z w) : complex_scope.
Notation "z / w" := (Cdiv z w) : complex_scope.
Notation "- z" := (Copp z) : complex_scope.

(** [z ** 2] *)
Definition Csqr (z : C) : C := (z * z)%C.

(** [np.exp] on a complex number *)
Definition Cexp (z : C) : C :=
  Cx (exp (re z) * cos (im z)) (exp (re z) * sin (im z)).

(** [np.tanh] on a complex number *)
Definition Ctanh (z : C) : C :=
  ((Cexp z - Cexp (- z)) / (Cexp z + Cexp (- z)))%C.

(** ** Comparisons and numpy's scalar functions *)

Definition Reqb (x y : R) : bool := if Req_dec_T x y then true else false.
Definition Rltb (x y : R) : bool := if Rlt_dec x y then true else false.

(** [np.sign] *)
Definition np_sign (x : R) : R :=
  if Rltb x 0 then -1 else if Rltb 0 x then 1 else 0.

(** [np.heaviside(x, h0)]: [h0] is the value at [x = 0]. *)
Definition np_heaviside (x h0 : R) : R :=
  if Rltb x 0 then 0 else if Reqb x 0 then h0 else 1.

(** [x ** y] with a float exponent [y]; agrees with numpy for [0 < x]. *)
Definition float_pow (x y : R) : R := Rpower x y.

(** [range(a, b)] *)
Definition range (a b : nat) : list nat := seq a (b - a).

(** ** Arrays *)

(** [xs[m]] for a boolean mask [m] *)
Fixpoint mask_select {A : Type} (m : list bool) (xs : list A) : list A :=
  match m, xs with
  | true :: m', x :: xs' => x :: mask_select m' xs'
  | false :: m', _ :: xs' => mask_select m' xs'
  | _, _ => []
  end.

(** [xs[m] = vals]: the values are written, in order, to the positions
    where the mask holds. *)
Fixpoint mask_assign {A : Type} (m : list bool) (vals xs : list A) : list A :=
  match m, xs with
  | true :: m', x :: xs' =>
      match vals with
      | v :: vals' => v :: mask_assign m' vals' xs'
      | [] => x :: mask_assign m' [] xs'
      end
  | false :: m', x :: xs' => x :: mask_assign m' vals xs'
  | _, _ => xs
  end.

(** [np.zeros_like(xs)] *)
Definition zeros_like {A B : Type} (zero : B) (xs : list A) : list B :=
  map (fun _ => zero) xs.

(** ** Exceptions *)

Inductive exception : Set :=
| ValueError (msg : string)
| IndexError (msg : string)
| ZeroDivisionError.

Definition result (A : Type) : Type := (exception + A)%type.

Definition bind {A B : Type} (r : result A) (k : A -> result B) : result B :=
  match r with
  | inl e => inl e
  | inr a => k a
  end.

Notation "x <- r ;; k" := (bind r (fun x => k))
  (at level 61, r at next level, right associativity).
Notation "' pat <- r ;; k" := (bind r (fun x => match x with pat => k end))
  (at level 61, pat pattern, r at next level, right associativity).

Definition show_nat (n : nat) : string :=
  NilEmpty.string_of_uint (Nat.to_uint n).

(** [x1, ..., xn = xs] *)
Definition unpack_error {A : Type} (n : nat) (xs : list A) : exception :=
  if (List.length xs <? n)%nat
  then ValueError ("not enough values to unpack (expected " ++ show_nat n
                   ++ ", got " ++ show_nat (List.length xs) ++ ")")%string
  else ValueError
         ("too many values to unpack (expected " ++ show_nat n ++ ")")%string.

Definition unpack3 {A : Type} (xs : list A) : result (A * A * A) :=
  match xs with
  | [a; b; c] => inr (a, b, c)
  | _ => inl (unpack_error 3 xs)
  end.

Definition unpack4 {A : Type} (xs : list A) : result (A * A * A * A) :=
  match xs with
  | [a; b; c; d] => inr (a, b, c, d)
  | _ => inl (unpack_error 4 xs)
  end.

(** [xs[i]] for an index [0 <= i] *)
Definition getitem {A : Type} (xs : list A) (i : nat) : result A :=
  match nth_error xs i with
  | Some x => inr x
  | None => inl (IndexError ("index " ++ show_nat i
                             ++ " is out of bounds for axis 0 with size "
                             ++ show_nat (List.length xs))%string)
  end.

(** [x / y] for Python floats [x] and [y], which raises when [y] is zero. *)
Definition float_div (x y : R) : result R :=
  if Reqb y 0 then inl ZeroDivisionError else inr (x / y).

(** A list comprehension whose body can raise. *)
Fixpoint mapM {A B : Type} (f : A -> result B) (xs : list A)
  : result (list B) :=
  match xs with
  | [] => inr []
  | x :: xs' => y <- f x ;; ys <- mapM f xs' ;; inr (y :: ys)
  end.

(** The shape [(n,m)] as numpy prints it. *)
Definition show_shape (n m : nat) : string :=
  ("(" ++ show_nat n ++ "," ++ show_nat m ++ ")")%string.

(** A binary operation on two arrays of the shapes [(len(xs), mx)] and
    [(len(ys), my)], broadcast along the first axis: the lengths agree, or
    one of them is 1; otherwise numpy raises. *)
Definition broadcast2 {A B D : Type} (f : A -> B -> D)
           (xs : list A) (mx : nat) (ys : list B) (my : nat)
  : result (list D) :=
  if (List.length xs =? List.length ys)%nat
  then inr (map (fun p => f (fst p) (snd p)) (combine xs ys))
  else
    match xs, ys with
    | [x], _ => inr (map (f x) ys)
    | _, [y] => inr (map (fun x => f x y) xs)
    | _, _ =>
        inl (ValueError
               ("operands could not be broadcast together with shapes "
                ++ show_shape (List.length xs) mx ++ " "
                ++ show_shape (List.length ys) my ++ " ")%string)
    end.

(** [np.sum(rows, axis=0)] at one column *)
Definition Csum (zs : list C) : C := fold_left Cadd zs (RtoC 0).

(** [corr += vals], elementwise *)
Definition add_inplace (corr vals : list C) : list C :=
  map (fun p => (fst p + snd p)%C) (combine corr vals).

(** [S += vals], elementwise *)
Definition add_inplace_R (S vals : list R) : list R :=
  map (fun p => fst p + snd p) (combine S vals).

(** ** BosonicEnvironment *)

Module BosonicEnvironment.
Section Defaults.

(** [qutip.utilities.n_thermal(w, w_th)], per frequency *)
Variable n_thermal : R -> R -> R.

Variable T : R.
Variable spectral_density : R -> R.

(** The default [power_spectrum] of the base class, from the spectral
    density.  [w = np.array(w, dtype=float)] copies the argument, so the
    caller's array is not changed by the masked update. *)
Definition power_spectrum (w : list R) (dt : R) : list R :=
  let zero := map (fun x => Reqb x 0) w in
  let w := mask_assign zero (map (fun x => x + 1e-6) (mask_select zero w)) w in
  if negb (Reqb T 0)
  then map (fun x => 2 * np_sign x * spectral_density (Rabs x)
                     * (n_thermal x T + 1)) w
  else map (fun x => 2 * np_heaviside x 0 * spectral_density x) w.

End Defaults.
End BosonicEnvironment.

(** ** The analytic models *)

Module DrudeLorentzEnvironment.

Record t : Type := new { T : R; lam : R; gamma : R }.

Definition spectral_density (self : t) (w : R) : R :=
  2 * lam self * gamma self * w / (gamma self ^ 2 + w ^ 2).

Definition power_spectrum (n_thermal : R -> R -> R) (self : t)
           (w : list R) (dt : R) : list R :=
  BosonicEnvironment.power_spectrum n_thermal (T self)
    (spectral_density self) w dt.

(** Returns [(ck_real, vk_real, ck_imag, vk_imag)].  The parameters are
    Python floats: the divisions by [2 * T] and by
    [(2 pi k T)^2 - gamma^2] raise at zero, while the division by
    [np.tan(...)], a numpy value, does not. *)
Definition _matsubara_params (self : t) (Nk : nat)
  : result (list R * list R * list R * list R) :=
  x <- float_div (gamma self) (2 * T self) ;;
  let ck_real := [lam self * gamma self / tan x] in
  terms <- mapM (fun k : nat =>
                   float_div
                     (8 * lam self * gamma self * T self * PI * INR k * T self)
                     ((2 * PI * INR k * T self) ^ 2 - gamma self ^ 2))
                (range 1 (Nk + 1)) ;;
  let ck_real := ck_real ++ terms in
  let vk_real := [gamma self] in
  let vk_real :=
    vk_real ++ map (fun k : nat => 2 * PI * INR k * T self) (range 1 (Nk + 1)) in
  let ck_imag := [- lam self * gamma self] in
  let vk_imag := [gamma self] in
  inr (ck_real, vk_real, ck_imag, vk_imag).

(** The inner function [C(c, v)] of [correlation_function], at one time. *)
Definition C_ (c v : list R) (t : R) : R :=
  fold_left Rplus
    (map (fun '(ck, vk) => ck * exp (- (vk * t))) (combine c v)) 0.

Definition correlation_function (self : t) (t_ : list R) (Nk : nat)
  : result (list C) :=
  '(ck_real, vk_real, ck_imag, vk_imag) <- _matsubara_params self Nk ;;
  inr (map (fun t => (RtoC (C_ ck_real vk_real t)
                      + Cj 1 * RtoC (C_ ck_imag vk_imag t))%C) t_).

End DrudeLorentzEnvironment.

Module UnderDampedEnvironment.

Record t : Type := new { T : R; lam : R; gamma : R; w0 : R }.

Definition spectral_density (self : t) (w : R) : R :=
  lam self ^ 2 * gamma self * w
  / ((w ^ 2 - w0 self ^ 2) ^ 2 + (gamma self * w) ^ 2).

Definition power_spectrum (n_thermal : R -> R -> R) (self : t)
           (w : list R) (dt : R) : list R :=
  BosonicEnvironment.power_spectrum n_thermal (T self)
    (spectral_density self) w dt.

(** Returns [(ck_real, vk_real, ck_imag, vk_imag)]; the real entries of
    the lists are promoted to complex numbers.  [1 / self.T] divides
    Python floats and raises at [T = 0]; [beta] is then not zero, and the
    other divisions have a numpy value as an operand. *)
Definition _matsubara_params (self : t) (Nk : nat)
  : result (list C * list C * list C * list C) :=
  beta <- float_div 1 (T self) ;;
  let Om := sqrt (w0 self ^ 2 - (gamma self / 2) ^ 2) in
  let Gamma := gamma self / 2 in
  let ck_real :=
    [(RtoC (lam self ^ 2 / (4 * Om))
      * (RtoC 1
         / Ctanh (RtoC beta * (RtoC Om + Cj 1 * RtoC Gamma) / RtoC 2)))%C;
     (RtoC (lam self ^ 2 / (4 * Om))
      * (RtoC 1
         / Ctanh (RtoC beta * (RtoC Om - Cj 1 * RtoC Gamma) / RtoC 2)))%C] in
  let ck_real :=
    ck_real ++
    map (fun k : nat =>
           (RtoC ((-2 * lam self ^ 2 * gamma self / beta)
                  * (2 * PI * INR k / beta))
            / ((Csqr (RtoC Om + Cj 1 * RtoC Gamma)
                + RtoC ((2 * PI * INR k / beta) ^ 2))
               * (Csqr (RtoC Om - Cj 1 * RtoC Gamma)
                  + RtoC ((2 * PI * INR k / beta) ^ 2))))%C)
        (range 1 (Nk + 1)) in
  let vk_real :=
    [(- Cj 1 * RtoC Om + RtoC Gamma)%C; (Cj 1 * RtoC Om + RtoC Gamma)%C] in
  let vk_real :=
    vk_real ++
    map (fun k : nat => RtoC (2 * PI * INR k * T self)) (range 1 (Nk + 1)) in
  let ck_imag :=
    [(Cj 1 * RtoC (lam self ^ 2) / RtoC (4 * Om))%C;
     (- Cj 1 * RtoC (lam self ^ 2) / RtoC (4 * Om))%C] in
  let vk_imag :=
    [(- Cj 1 * RtoC Om + RtoC Gamma)%C; (Cj 1 * RtoC Om + RtoC Gamma)%C] in
  inr (ck_real, vk_real, ck_imag, vk_imag).

End UnderDampedEnvironment.

Module OhmicEnvironment.

Record t : Type := new { T : R; alpha : R; wc : R; s : R }.

Definition spectral_density (self : t) (w : R) : R :=
  alpha self * float_pow w (s self)
  / (float_pow (wc self) (1 - s self))
  * exp (- Rabs w / wc self).

Definition power_spectrum (n_thermal : R -> R -> R) (self : t)
           (w : list R) (dt : R) : list R :=
  BosonicEnvironment.power_spectrum n_thermal (T self)
    (spectral_density self) w dt.

End OhmicEnvironment.

(** ** Interpolation of a discretized function *)

(** A characteristic function is given as a callable or as an array of
    samples. *)
Inductive characterization (V : Type) : Type :=
| Callable (f : R -> V)
| Discretized (ys : list V).
Arguments Callable {V} f.
Arguments Discretized {V} ys.

(** The calls made to the interpolation backend, latest first. *)
Inductive backend_call : Type :=
| Interp1d (xs ys : list R).

(** Construction runs in an error monad that logs the backend calls. *)
Definition M (A : Type) : Type :=
  list backend_call -> result A * list backend_call.

Definition ret {A : Type} (a : A) : M A := fun log => (inr a, log).

Definition raise {A : Type} (e : exception) : M A := fun log => (inl e, log).

Definition mbind {A B : Type} (m : M A) (k : A -> M B) : M B :=
  fun log =>
    match m log with
    | (inl e, log') => (inl e, log')
    | (inr a, log') => k a log'
    end.

Notation "x <~ m ;; k" := (mbind m (fun x => k))
  (at level 61, m at next level, right associativity).

Section Interpolation.

(** [scipy.interpolate.interp1d(xs, ys, kind='cubic',
    fill_value='extrapolate')], which returns the interpolant or raises
    (for too few samples, for instance). *)
Variable interp1d : list R -> list R -> result (R -> R).

Definition call_interp1d (xs ys : list R) : M (R -> R) :=
  fun log => (interp1d xs ys, Interp1d xs ys :: log).

Definition _real_interpolation (fun_ : characterization R)
           (xlist : option (list R)) (name : string) : M (R -> R) :=
  match fun_ with
  | Callable f => ret f
  | Discretized ys =>
      match xlist with
      | None =>
          raise (ValueError
                   ("A list of x-values with the same length must be "
                    ++ "provided for the discretized function ("
                    ++ name ++ ")")%string)
      | Some xs =>
          if negb (List.length xs =? List.length ys)%nat
          then raise (ValueError
                        ("A list of x-values with the same length must be "
                         ++ "provided for the discretized function ("
                         ++ name ++ ")")%string)
          else call_interp1d xs ys
      end
  end.

Definition _complex_interpolation (fun_ : characterization C)
           (xlist : option (list R)) (name : string) : M (R -> C) :=
  match fun_ with
  | Callable f => ret f
  | Discretized ys =>
      real_interp <~ _real_interpolation (Discretized (map re ys)) xlist name ;;
      imag_interp <~ _real_interpolation (Discretized (map im ys)) xlist name ;;
      ret (fun x => (RtoC (real_interp x) + Cj 1 * RtoC (imag_interp x))%C)
  end.

End Interpolation.

(** ** Environments built from a characteristic function *)

Module _BosonicEnvironment_fromCF.

Record t : Type := new { T : R; _cf : R -> C }.

Definition __init__ (interp1d : list R -> list R -> result (R -> R)) (T : R)
           (C_ : characterization C) (tlist : option (list R)) : M t :=
  cf <~ _complex_interpolation interp1d C_ tlist "correlation function" ;;
  ret (new T cf).

Definition correlation_function (self : t) (t_ : list R) : list C :=
  let result := zeros_like (RtoC 0) t_ in
  let positive_mask := map (fun x => Rltb 0 x) t_ in
  let non_positive_mask := map negb positive_mask in
  let result :=
    mask_assign positive_mask
      (map (_cf self) (mask_select positive_mask t_)) result in
  let result :=
    mask_assign non_positive_mask
      (map Cconj
         (map (_cf self) (map Rabs (mask_select non_positive_mask t_))))
      result in
  result.

End _BosonicEnvironment_fromCF.

Module _BosonicEnvironment_fromPS.

Record t : Type := new { T : R; _ps : R -> R }.

Definition __init__ (interp1d : list R -> list R -> result (R -> R)) (T : R)
           (S_ : characterization R) (wlist : option (list R)) : M t :=
  ps <~ _real_interpolation interp1d S_ wlist "power spectrum" ;;
  ret (new T ps).

Definition power_spectrum (self : t) (w : list R) (dt : R) : list R :=
  map (_ps self) w.

Definition spectral_density (n_thermal : R -> R -> R) (self : t)
           (w : list R) : list R :=
  map (fun p => fst p / (snd p + 1) / 2)
      (combine (power_spectrum self w 1e-5)
               (map (fun x => n_thermal x (T self)) w)).

End _BosonicEnvironment_fromPS.

Module _BosonicEnvironment_fromSD.

Record t : Type := new { T : R; _sd : R -> R }.

Definition __init__ (interp1d : list R -> list R -> result (R -> R)) (T : R)
           (J : characterization R) (wlist : option (list R)) : M t :=
  sd <~ _real_interpolation interp1d J wlist "spectral density" ;;
  ret (new T sd).

Definition spectral_density (self : t) (w : R) : R := _sd self w.

Definition power_spectrum (n_thermal : R -> R -> R) (self : t)
           (w : list R) (dt : R) : list R :=
  BosonicEnvironment.power_spectrum n_thermal (T self)
    (spectral_density self) w dt.

End _BosonicEnvironment_fromSD.

(** The factory methods of [BosonicEnvironment]. *)
Definition from_correlation_function := _BosonicEnvironment_fromCF.__init__.
Definition from_power_spectrum := _BosonicEnvironment_fromPS.__init__.
Definition from_spectral_density := _BosonicEnvironment_fromSD.__init__.

(** ** Baths described by exponents *)

(** The arguments that a bath hands to [BosonicBath.__init__]: the
    coefficient and rate lists of the real and of the imaginary part of
    the correlation function. [Qobj] is the type of coupling operators. *)
Record ExponentialBosonicBath (Qobj : Type) : Type := Bath {
  Q : Qobj;
  ck_real : list C;
  vk_real : list C;
  ck_imag : list C;
  vk_imag : list C;
  T : option R
}.
Arguments Bath {Qobj} Q ck_real vk_real ck_imag vk_imag T.
Arguments Q {Qobj} _.
Arguments ck_real {Qobj} _.
Arguments vk_real {Qobj} _.
Arguments ck_imag {Qobj} _.
Arguments vk_imag {Qobj} _.
Arguments T {Qobj} _.

(** [ExponentialBosonicBath._bose_einstein] *)
Definition _bose_einstein {Qobj : Type} (self : ExponentialBosonicBath Qobj)
           (w : list R) : result (list R) :=
  match T self with
  | None =>
      inl (ValueError "Bath temperature must be specified for this operation")
  | Some T =>
      if Reqb T 0 then inr (zeros_like 0 w)
      else
        let result := zeros_like 0 w in
        let non_zero := map (fun x => negb (Reqb x 0)) w in
        let result :=
          mask_assign non_zero
            (map (fun x => 1 / (exp (x / T) - 1)) (mask_select non_zero w))
            result in
        inr result
  end.

(** The exponents of a bosonic bath ([BathExponent] of
    [qutip.solver.heom.bofin_baths]): the type is one of ['R'], ['I'] and
    ['RI'], and the second coefficient [ck2] is read for ['RI'] only. *)
Inductive exponent_type : Set := type_R | type_I | type_RI.

Definition exponent_type_eqb (x y : exponent_type) : bool :=
  match x, y with
  | type_R, type_R | type_I, type_I | type_RI, type_RI => true
  | _, _ => false
  end.

Record BathExponent : Set := Exponent {
  exp_type : exponent_type;
  exp_ck : C;
  exp_ck2 : C;
  exp_vk : C
}.

(** [ExponentialBosonicBath.correlation_function_approx]; [exponents] is
    the attribute [self.exponents], set by [BosonicBath.__init__]. *)
Definition correlation_function_approx (exponents : list BathExponent)
           (t : list R) : list C :=
  let corr := zeros_like (RtoC 0) t in
  fold_left
    (fun corr exp =>
       let corr :=
         if exponent_type_eqb (exp_type exp) type_R
            || exponent_type_eqb (exp_type exp) type_RI
         then add_inplace corr
                (map (fun t => (exp_ck exp * Cexp (- exp_vk exp * RtoC t))%C) t)
         else corr in
       let corr :=
         if exponent_type_eqb (exp_type exp) type_I
         then add_inplace corr
                (map (fun t =>
                        (Cj 1 * exp_ck exp * Cexp (- exp_vk exp * RtoC t))%C)
                     t)
         else corr in
       let corr :=
         if exponent_type_eqb (exp_type exp) type_RI
         then add_inplace corr
                (map (fun t =>
                        (Cj 1 * exp_ck2 exp * Cexp (- exp_vk exp * RtoC t))%C)
                     t)
         else corr in
       corr)
    exponents corr.

(** The coefficient [coeff] of [power_spectrum_approx]: each of the three
    types assigns it before it is read. *)
Definition power_spectrum_coeff (exp : BathExponent) : C :=
  match exp_type exp with
  | type_R => exp_ck exp
  | type_I => (Cj 1 * exp_ck exp)%C
  | type_RI => (exp_ck exp + Cj 1 * exp_ck2 exp)%C
  end.

(** [ExponentialBosonicBath.power_spectrum_approx] *)
Definition power_spectrum_approx (exponents : list BathExponent)
           (w : list R) : list R :=
  let S := zeros_like 0 w in
  fold_left
    (fun S exp =>
       let coeff := power_spectrum_coeff exp in
       add_inplace_R S
         (map (fun w => 2 * re (coeff / (exp_vk exp - Cj 1 * RtoC w))%C) w))
    exponents S.

(** [ExponentialBosonicBath.spectral_density_approx] *)
Definition spectral_density_approx {Qobj : Type}
           (self : ExponentialBosonicBath Qobj)
           (exponents : list BathExponent) (w : list R) : result (list R) :=
  let S := power_spectrum_approx exponents w in
  n <- _bose_einstein self w ;;
  inr (map (fun p => fst p / (snd p + 1) / 2) (combine S n)).

(** What [from_ps] reads of the bath that it approximates. *)
Record BosonicReservoir : Type := Reservoir {
  reservoir_power_spectrum : list R -> list R;
  reservoir_T : option R
}.

(** The five values returned by [fit_utils.aaa]. *)
Record aaa_result : Type := AAA {
  aaa_r : C -> C;
  aaa_pol : list C;
  aaa_res : list C;
  aaa_zer : list C;
  aaa_errors : list R
}.

Module ApproximatedBosonicBath.
Section FromPowerSpectrum.

Variable Qobj : Type.

(** [fit_utils.aaa(func, z, tol, max_iter)] *)
Variable aaa : (list R -> list R) -> list R -> R -> Z -> aaa_result.

(** [fit_utils.filter_poles(pol, res)] *)
Variable filter_poles : list C -> list C -> list C * list C.

Definition from_ps (bath : BosonicReservoir) (x : list R) (tol : R)
           (max_exponents : Z) (Q : Qobj) : ExponentialBosonicBath Qobj :=
  let fit := aaa (reservoir_power_spectrum bath) x tol (max_exponents * 2)%Z in
  let '(new_pols, new_res) := filter_poles (aaa_pol fit) (aaa_res fit) in
  let ckAR := map re (map (fun z => (- Cj 1 * z)%C) new_res) in
  let ckAI := map im (map (fun z => (- Cj 1 * z)%C) new_res) in
  let vkAR := map re (map (fun z => (Cj 1 * z)%C) new_pols) in
  let vkAI := map im (map (fun z => (Cj 1 * z)%C) new_pols) in
  let vk :=
    map (fun '(r, i) => (RtoC r + Cj 1 * RtoC i)%C) (combine vkAR vkAI) in
  Bath Q (map RtoC ckAR) vk (map RtoC ckAI) vk (reservoir_T bath).

End FromPowerSpectrum.
End ApproximatedBosonicBath.

Module SpectralFitter.

(** The fit function, a sum of underdamped spectral densities in the
    Meier-Tannor form. *)
Definition _meier_tannor_SD (w : R) (a b c : list R) : R :=
  fold_left Rplus
    (map (fun '(ai, (bi, ci)) =>
            2 * ai * bi * w
            / ((w + ci) ^ 2 + bi ^ 2)
            / ((w - ci) ^ 2 + bi ^ 2))
         (combine a (combine b c)))
    0.

Section GenerateBath.

Variable Qobj : Type.

(** [UnderDampedBath._matsubara_params(lam, gamma, w0, T, Nk)] of
    [qutip.solver.heom.bofin_baths], returning
    [(ck_real, vk_real, ck_imag, vk_imag)]. *)
Variable UnderDampedBath_matsubara_params :
  C -> R -> C -> option R -> nat -> list C * list C * list C * list C.

Definition _generate_bath (self_Q : Qobj) (self_T : option R)
           (params : list (list R)) (Nk : nat)
  : result (ExponentialBosonicBath Qobj) :=
  '(lam, gamma, w0) <- unpack3 params ;;
  w0 <- mapM (fun i =>
                w0_i <- getitem w0 i ;;
                gamma_i <- getitem gamma i ;;
                inr (Csqrt (Csqr (RtoC w0_i + Cj 0)
                            + Csqr (RtoC gamma_i + Cj 0 / RtoC 2))%C))
             (range 0 (List.length w0)) ;;
  let lam := map (fun x => Csqrt (RtoC x + Cj 0)%C) lam in
  let '(ckAR, vkAR, ckAI, vkAI) :=
    fold_left
      (fun '(ckAR, vkAR, ckAI, vkAI) '(lamt, (Gamma, Om)) =>
         let '(c0, c1, c2, c3) :=
           UnderDampedBath_matsubara_params
             lamt (2 * Gamma) (Om + Cj 0)%C self_T Nk in
         (ckAR ++ c0, vkAR ++ c1, ckAI ++ c2, vkAI ++ c3))
      (combine lam (combine gamma w0))
      ([], [], [], []) in
  inr (Bath self_Q ckAR vkAR ckAI vkAI self_T).

End GenerateBath.
End SpectralFitter.

Module CorrelationFitter.

(** The fit function.  The default [d = 0] behaves as an array of zeros. *)
Definition _corr_approx (t a b c d : list R) : result (list C) :=
  let d := if forallb (fun x => Reqb x 0) d then zeros_like 0 a else d in
  amp <- broadcast2 (fun x y => (RtoC x + Cj 1 * RtoC y)%C) a 1 d 1 ;;
  rows <- broadcast2 (fun z bk => (z, bk)) amp 1 b (List.length t) ;;
  rows <- broadcast2 (fun r ck => (r, ck)) rows (List.length t)
            c (List.length t) ;;
  inr (map (fun t =>
              Csum (map (fun '(z, bk, ck) =>
                           (z * RtoC (exp (bk * t))
                            * Cexp (Cj 1 * RtoC ck * RtoC t))%C)
                        rows))
           t).

Section GenerateBath.

Variable Qobj : Type.

Definition _generate_bath (self_Q : Qobj) (self_T : option R)
           (params_real params_imag : list (list R)) (n : Z)
  : result (ExponentialBosonicBath Qobj) :=
  '(a, b, c, d, (a2, b2, c2, d2)) <-
    (if (n =? 4)%Z
     then
       '(a, b, c, d) <- unpack4 params_real ;;
       '(a2, b2, c2, d2) <- unpack4 params_imag ;;
       inr (a, b, c, d, (a2, b2, c2, d2))
     else
       '(a, b, c) <- unpack3 params_real ;;
       '(a2, b2, c2) <- unpack3 params_imag ;;
       let d := zeros_like 0 a in
       let d2 := zeros_like 0 a2 in
       inr (a, b, c, d, (a2, b2, c2, d2))) ;;
  let ckAR :=
    map (fun '(x, y) => ((RtoC x + Cj 1 * RtoC y) * RtoC 0.5)%C)
        (combine a d) in
  let ckAR := ckAR ++ map Cconj ckAR in
  let vkAR :=
    map (fun '(x, y) => (RtoC (- x) - Cj 1 * RtoC y)%C) (combine b c) in
  let vkAR :=
    vkAR ++
    map (fun '(x, y) => (RtoC (- x) + Cj 1 * RtoC y)%C) (combine b c) in
  let ckAI :=
    map (fun '(x, y) =>
           (- Cj 1 * (RtoC x + Cj 1 * RtoC y) * RtoC 0.5)%C)
        (combine a2 d2) in
  let ckAI := ckAI ++ map Cconj ckAI in
  let vkAI :=
    map (fun '(x, y) => (RtoC (- x) - Cj 1 * RtoC y)%C) (combine b2 c2) in
  let vkAI :=
    vkAI ++
    map (fun '(x, y) => (RtoC (- x) + Cj 1 * RtoC y)%C) (combine b2 c2) in
  inr (Bath self_Q ckAR vkAR ckAI vkAI self_T).

End GenerateBath.
End CorrelationFitter.

(** ** Environments that use the default power spectrum *)

(** The classes whose [power_spectrum] is [super().power_spectrum]. *)
Inductive sd_environment : Type :=
| EnvFromSD (e : _BosonicEnvironment_fromSD.t)
| EnvDrudeLorentz (e : DrudeLorentzEnvironment.t)
| EnvUnderDamped (e : UnderDampedEnvironment.t)
| EnvOhmic (e : OhmicEnvironment.t).

Definition env_T (e : sd_environment) : R :=
  match e with
  | EnvFromSD e => _BosonicEnvironment_fromSD.T e
  | EnvDrudeLorentz e => DrudeLorentzEnvironment.T e
  | EnvUnderDamped e => UnderDampedEnvironment.T e
  | EnvOhmic e => OhmicEnvironment.T e
  end.

Definition env_spectral_density (e : sd_environment) : R -> R :=
  match e with
  | EnvFromSD e => _BosonicEnvironment_fromSD.spectral_density e
  | EnvDrudeLorentz e => DrudeLorentzEnvironment.spectral_density e
  | EnvUnderDamped e => UnderDampedEnvironment.spectral_density e
  | EnvOhmic e => OhmicEnvironment.spectral_density e
  end.

Definition env_power_spectrum (n_thermal : R -> R -> R) (e : sd_environment)
  : list R -> R -> list R :=
  match e with
  | EnvFromSD e => _BosonicEnvironment_fromSD.power_spectrum n_thermal e
  | EnvDrudeLorentz e => DrudeLorentzEnvironment.power_spectrum n_thermal e
  | EnvUnderDamped e => UnderDampedEnvironment.power_spectrum n_thermal e
  | EnvOhmic e => OhmicEnvironment.power_spectrum n_thermal e
  end.

(** ** Entries that are not numbers *)

(** A division of numpy values does not raise where the divisor is zero:
    the entry is [inf] or [nan], and so is every entry that the default
    power spectrum computes from it.  To tell these entries from numbers,
    the module [Entries] repeats the default power spectrum and the
    spectral densities of the Drude-Lorentz and the underdamped
    environment, operation by operation, with the entry [Some x] for the
    number [x] and the entry [None] for [inf] and [nan]. *)
Definition np_div (x y : R) : option R :=
  if Reqb y 0 then None else Some (x / y).

Module Entries.
Section Defaults.

(** [qutip.utilities.n_thermal(w, w_th)], per frequency *)
Variable n_thermal : R -> R -> option R.

Variable T : R.
Variable spectral_density : R -> option R.

(** [BosonicEnvironment.power_spectrum]: an entry is a number when the
    spectral density and, for [T <> 0], the occupation number are. *)
Definition power_spectrum (w : list R) (dt : R) : list (option R) :=
  let zero := map (fun x => Reqb x 0) w in
  let w := mask_assign zero (map (fun x => x + 1e-6) (mask_select zero w)) w in
  if negb (Reqb T 0)
  then map (fun x =>
              match spectral_density (Rabs x), n_thermal x T with
              | Some J, Some n => Some (2 * np_sign x * J * (n + 1))
              | _, _ => None
              end) w
  else map (fun x =>
              match spectral_density x with
              | Some J => Some (2 * np_heaviside x 0 * J)
              | None => None
              end) w.

End Defaults.


(** [UnderDampedEnvironment.spectral_density] *)
Definition UnderDamped_spectral_density (self : UnderDampedEnvironment.t)
           (w : R) : option R :=
  np_div (UnderDampedEnvironment.lam self ^ 2
          * UnderDampedEnvironment.gamma self * w)
         ((w ^ 2 - UnderDampedEnvironment.w0 self ^ 2) ^ 2
          + (UnderDampedEnvironment.gamma self * w) ^ 2).

End Entries.

(** ** Notions used to state the properties *)


(** The frequency at which the default power spectrum is evaluated. *)
Definition regularized (w : R) : R := if Reqb w 0 then 1e-6 else w.

(** The power spectrum of the documentation at one frequency. *)
Definition detailed_balance (n_thermal : R -> R -> R) (T : R) (J : R -> R)
           (w : R) : R :=
  if Reqb T 0 then 2 * np_heaviside w 0 * J w
  else 2 * np_sign w * J (Rabs w) * (n_thermal w T + 1).

(** Where the entry [f' x] is a number, it is [f x]. *)
Definition tracks {A : Type} (f' : A -> option R) (f : A -> R) : Prop :=
  forall x y, f' x = Some y -> f x = y.

(** The Bose-Einstein occupation number at a temperature [T <> 0]. *)
Definition bose (T w : R) : R :=
  if Reqb w 0 then 0 else 1 / (exp (w / T) - 1).

(** The axis of a discretized function is missing or has another length
    than the samples. *)
Definition axis_mismatch (xlist : option (list R)) (n : nat) : Prop :=
  match xlist with
  | None => True
  | Some xs => List.length xs <> n
  end.

Definition interpolation_error (name : string) : exception :=
  ValueError ("A list of x-values with the same length must be provided "
              ++ "for the discretized function (" ++ name ++ ")")%string.

(** The exponents of a coefficient list and a rate list. *)
Definition exponents (ck vk : list C) : list (C * C) := combine ck vk.

(** Every exponent [(c, v)] comes with the exponent [(partner (c, v))]. *)
Definition closed_under (partner : C * C -> C * C) (l : list (C * C)) : Prop :=
  forall cv, In cv l -> In (partner cv) l.

(** A complex number that can divide: its squared modulus is not zero. *)
Definition Cnonzero (z : C) : Prop := re z * re z + im z * im z <> 0.

(** The partner [(conj c, conj v)]. *)
Definition conj_pair (cv : C * C) : C * C := (Cconj (fst cv), Cconj (snd cv)).

(** The partner [(conj c, - conj v)]. *)
Definition conj_neg_pair (cv : C * C) : C * C :=
  (Cconj (fst cv), (- Cconj (snd cv))%C).

(** [zip(xs, ys, zs)] *)
Definition zip3 {A B D : Type} (xs : list A) (ys : list B) (zs : list D)
  : list (A * (B * D)) := combine xs (combine ys zs).

(** The resonance frequency of the specification, [sqrt(c^2 + (b/2)^2)]. *)
Definition spec_w0 (b c : R) : C := Csqrt (RtoC (c ^ 2 + (b / 2) ^ 2)).

(** The resonance frequency [sqrt(c^2 + b^2)]. *)
Definition fitted_w0 (b c : R) : C := Csqrt (RtoC (c ^ 2 + b ^ 2)).

(** The coupling strength [sqrt(a)]. *)
Definition fitted_lam (a : R) : C := Csqrt (RtoC a).

(** The parameters of a fit of the correlation function: rows [a, b, c],
    and a fourth row [d] with the full ansatz ([n = 4]). *)
Definition fit_params (n : Z) (a b c d : list R) : list (list R) :=
  if (n =? 4)%Z then [a; b; c; d] else [a; b; c].

(** The imaginary amplitudes of a fit: zero without the full ansatz. *)
Definition fit_d (n : Z) (a d : list R) : list R :=
  if (n =? 4)%Z then d else zeros_like 0 a.

(** A stand-in for [UnderDampedBath._matsubara_params] that returns the
    parameters it is called with: the coupling strength, the damping and
    the resonance frequency. *)
Definition echo_params (lam : C) (gamma : R) (w0 : C) (T : option R)
           (Nk : nat) : list C * list C * list C * list C :=
  ([lam], [RtoC gamma], [w0], []).

(** The sum of a list of reals. *)
Definition Rsum (xs : list R) : R := fold_right Rplus 0 xs.

(** The exponents of a bath before any combination: the real lists give
    exponents of the type ['R'] and the imaginary lists exponents of the
    type ['I']. *)
Definition tagged_exponents {Qobj : Type} (bath : ExponentialBosonicBath Qobj)
  : list BathExponent :=
  map (fun cv => Exponent type_R (fst cv) (RtoC 0) (snd cv))
      (exponents (ck_real bath) (vk_real bath))
  ++ map (fun cv => Exponent type_I (fst cv) (RtoC 0) (snd cv))
         (exponents (ck_imag bath) (vk_imag bath)).

(** What one exponent adds to the approximated correlation function at
    the time [t]. *)
Definition exponent_term (exp : BathExponent) (t : R) : C :=
  match exp_type exp with
  | type_R => (exp_ck exp * Cexp (- exp_vk exp * RtoC t))%C
  | type_I => (Cj 1 * exp_ck exp * Cexp (- exp_vk exp * RtoC t))%C
  | type_RI =>
      (exp_ck exp * Cexp (- exp_vk exp * RtoC t)
       + Cj 1 * exp_ck2 exp * Cexp (- exp_vk exp * RtoC t))%C
  end.

(** What one exponent adds to the approximated power spectrum at the
    frequency [w]. *)
Definition lorentzian_term (exp : BathExponent) (w : R) : R :=
  2 * re (power_spectrum_coeff exp / (exp_vk exp - Cj 1 * RtoC w))%C.

(** One term [(a + i d) e^(b t) e^(i c t)] of the fit function, for the
    parameters [((a, d), (b, c))]. *)
Definition fit_term (q : (R * R) * (R * R)) (t : R) : C :=
  ((RtoC (fst (fst q)) + Cj 1 * RtoC (snd (fst q)))
   * RtoC (exp (fst (snd q) * t))
   * Cexp (Cj 1 * RtoC (snd (snd q)) * RtoC t))%C.

(** The fit function as a sum of its terms. *)
Definition fit_function (a b c d : list R) (t : R) : C :=
  Csum (map (fun q => fit_term q t) (combine (combine a d) (combine b c))).

(** * Part II: properties *)

(** ** Complex numbers *)

Lemma C_eq (z w : C) : re z = re w -> im z = im w -> z = w.
Proof. destruct z, w; simpl; intros -> ->; reflexivity. Qed.

Ltac csimpl :=
  unfold Csqr, Cmul, Cadd, Csub, Copp, Cdiv, Cconj, RtoC, Cj in *; simpl in *.

Ltac ceq := apply C_eq; csimpl; try lra; try (field; lra).

Lemma Cconj_invol (z : C) : Cconj (Cconj z) = z.
Proof. ceq. Qed.

Lemma C_re_im (z : C) : (RtoC (re z) + Cj 1 * RtoC (im z))%C = z.
Proof. ceq. Qed.

Lemma Cadd_0j (z : C) : (z + Cj 0)%C = z.
Proof. ceq. Qed.

Lemma Cmod_nonneg (z : C) : 0 <= Cmod z.
Proof. apply sqrt_pos. Qed.

Lemma Cmod_sqr (z : C) : Cmod z * Cmod z = re z * re z + im z * im z.
Proof. unfold Cmod; apply sqrt_sqrt; nra. Qed.

Lemma Cmod_ge_re (z : C) : Rabs (re z) <= Cmod z.
Proof.
  pose proof (Cmod_sqr z) as H. pose proof (Cmod_nonneg z) as Hm.
  unfold Rabs; destruct (Rcase_abs (re z)); nra.
Qed.

(** The principal square root is a square root. *)
Lemma Csqrt_sqr (z : C) : Csqr (Csqrt z) = z.
Proof.
  pose proof (Cmod_sqr z) as Hs. pose proof (Cmod_nonneg z) as Hm.
  pose proof (Cmod_ge_re z) as Hr.
  assert (Hp : 0 <= (Cmod z + re z) / 2)
    by (unfold Rabs in Hr; destruct (Rcase_abs (re z)); lra).
  assert (Hq : 0 <= (Cmod z - re z) / 2)
    by (unfold Rabs in Hr; destruct (Rcase_abs (re z)); lra).
  pose proof (sqrt_sqrt _ Hp) as Ep. pose proof (sqrt_sqrt _ Hq) as Eq.
  assert (Epq : sqrt ((Cmod z + re z) / 2) * sqrt ((Cmod z - re z) / 2)
                = Rabs (im z) / 2).
  { rewrite <- sqrt_mult by assumption.
    replace ((Cmod z + re z) / 2 * ((Cmod z - re z) / 2))
      with ((im z / 2) * (im z / 2)) by nra.
    rewrite <- (sqrt_square (Rabs (im z) / 2)).
    - f_equal. unfold Rabs; destruct (Rcase_abs (im z)); nra.
    - pose proof (Rabs_pos (im z)); lra. }
  apply C_eq; unfold Csqr, Csqrt, Cmul; simpl.
  - destruct (Rlt_dec (im z) 0); nra.
  - destruct (Rlt_dec (im z) 0) as [Hn | Hn].
    + rewrite Rabs_left in Epq by assumption. nra.
    + rewrite Rabs_right in Epq by lra. nra.
Qed.

Lemma Csqrt_inj (z w : C) : Csqrt z = Csqrt w -> z = w.
Proof.
  intros E. rewrite <- (Csqrt_sqr z), <- (Csqrt_sqr w). now rewrite E.
Qed.

(** ** Comparisons *)

Lemma Reqb_true (x y : R) : x = y -> Reqb x y = true.
Proof. intros H; unfold Reqb; destruct (Req_dec_T x y); congruence. Qed.

Lemma Reqb_false (x y : R) : x <> y -> Reqb x y = false.
Proof. intros H; unfold Reqb; destruct (Req_dec_T x y); congruence. Qed.

Lemma Rltb_true (x y : R) : x < y -> Rltb x y = true.
Proof. intros H; unfold Rltb; destruct (Rlt_dec x y); tauto. Qed.

Lemma Rltb_false (x y : R) : y <= x -> Rltb x y = false.
Proof. intros H; unfold Rltb; destruct (Rlt_dec x y); [lra | reflexivity]. Qed.

(** ** Arrays *)

(** A masked assignment of values computed elementwise from the masked
    entries is a conditional [map]. *)
Lemma mask_assign_map {A B : Type} (p : A -> bool) (f g : A -> B)
      (xs : list A) :
  mask_assign (map p xs) (map f (mask_select (map p xs) xs)) (map g xs)
  = map (fun x => if p x then f x else g x) xs.
Proof.
  induction xs as [| x xs IH]; simpl; [reflexivity |].
  destruct (p x); simpl; now rewrite IH.
Qed.

(** ** Spectral densities of the analytic models *)

Lemma float_pow_pos (x y : R) : 0 < float_pow x y.
Proof. unfold float_pow, Rpower. apply exp_pos. Qed.

Lemma Rdiv_nonneg (x y : R) : 0 <= x -> 0 < y -> 0 <= x / y.
Proof.
  intros Hx Hy. unfold Rdiv. apply Rmult_le_pos; [assumption |].
  left. now apply Rinv_0_lt_compat.
Qed.

Lemma drude_lorentz_sd_nonneg (e : DrudeLorentzEnvironment.t) (w : R) :
  0 < DrudeLorentzEnvironment.lam e -> 0 < DrudeLorentzEnvironment.gamma e ->
  0 < w -> 0 <= DrudeLorentzEnvironment.spectral_density e w.
Proof.
  intros Hl Hg Hw. unfold DrudeLorentzEnvironment.spectral_density.
  apply Rdiv_nonneg; [| nra].
  repeat apply Rmult_le_pos; lra.
Qed.

Lemma underdamped_sd_nonneg (e : UnderDampedEnvironment.t) (w : R) :
  0 < UnderDampedEnvironment.gamma e ->
  0 < w -> 0 <= UnderDampedEnvironment.spectral_density e w.
Proof.
  intros Hg Hw. unfold UnderDampedEnvironment.spectral_density.
  apply Rdiv_nonneg.
  - apply Rmult_le_pos; [apply Rmult_le_pos |]; try lra. apply pow2_ge_0.
  - pose proof (pow2_ge_0 (w ^ 2 - UnderDampedEnvironment.w0 e ^ 2)).
    assert (0 < UnderDampedEnvironment.gamma e * w) by nra.
    nra.
Qed.

Lemma ohmic_sd_nonneg (e : OhmicEnvironment.t) (w : R) :
  0 <= OhmicEnvironment.alpha e ->
  0 <= OhmicEnvironment.spectral_density e w.
Proof.
  intros Ha. unfold OhmicEnvironment.spectral_density.
  apply Rmult_le_pos; [| left; apply exp_pos].
  apply Rdiv_nonneg; [| apply float_pow_pos].
  apply Rmult_le_pos; [assumption | left; apply float_pow_pos].
Qed.

(** C9. For a frequency [w > 0] and parameters in the valid ranges
    ([lam], [gamma], [w0], [alpha], [wc], [s] all positive), the spectral
    densities of the Drude-Lorentz, the underdamped and the Ohmic
    environment are nonnegative at [w]. *)
Theorem spectral_density_nonneg
        (T lam gamma w0 alpha wc s w : R) :
  0 < w -> 0 < lam -> 0 < gamma -> 0 < w0 ->
  0 < alpha -> 0 < wc -> 0 < s ->
  0 <= DrudeLorentzEnvironment.spectral_density
         (DrudeLorentzEnvironment.new T lam gamma) w
  /\ 0 <= UnderDampedEnvironment.spectral_density
            (UnderDampedEnvironment.new T lam gamma w0) w
  /\ 0 <= OhmicEnvironment.spectral_density
            (OhmicEnvironment.new T alpha wc s) w.
Proof.
  intros Hw Hl Hg Hw0 Ha Hwc Hs. repeat split.
  - now apply drude_lorentz_sd_nonneg.
  - now apply underdamped_sd_nonneg.
  - apply ohmic_sd_nonneg; simpl; lra.
Qed.

Lemma spectral_density_nonneg_witness :
  0 <= DrudeLorentzEnvironment.spectral_density
         (DrudeLorentzEnvironment.new 1 1 1) 1
  /\ 0 <= UnderDampedEnvironment.spectral_density
            (UnderDampedEnvironment.new 1 1 1 1) 1
  /\ 0 <= OhmicEnvironment.spectral_density
            (OhmicEnvironment.new 1 1 1 1) 1.
Proof. apply (spectral_density_nonneg 1 1 1 1 1 1 1 1); lra. Defined.

(** ** Matsubara expansion of the Drude-Lorentz environment *)

Lemma range_1_succ (n : nat) : range 1 (n + 1) = seq 1 n.
Proof. unfold range. now rewrite Nat.add_sub. Qed.



Lemma float_div_nonzero (x y : R) : y <> 0 -> float_div x y = inr (x / y).
Proof. intros H. unfold float_div. now rewrite Reqb_false. Qed.


Lemma mapM_float_div {A : Type} (num den : A -> R) (l : list A) :
  Forall (fun k => den k <> 0) l ->
  mapM (fun k => float_div (num k) (den k)) l
  = inr (map (fun k => num k / den k) l).
Proof.
  induction 1 as [| k l Hk _ IH]; simpl; [reflexivity |].
  now rewrite float_div_nonzero, IH.
Qed.

(** Where no division is by zero, the Matsubara parameters are returned. *)
Lemma drude_lorentz_matsubara_params_defined
      (self : DrudeLorentzEnvironment.t) (Nk : nat) :
  let lam := DrudeLorentzEnvironment.lam self in
  let gamma := DrudeLorentzEnvironment.gamma self in
  let T := DrudeLorentzEnvironment.T self in
  T <> 0 ->
  Forall (fun k : nat => (2 * PI * INR k * T) ^ 2 - gamma ^ 2 <> 0)
         (seq 1 Nk) ->
  DrudeLorentzEnvironment._matsubara_params self Nk
  = inr ([lam * gamma / tan (gamma / (2 * T))]
         ++ map (fun k : nat =>
                   8 * lam * gamma * T * PI * INR k * T
                   / ((2 * PI * INR k * T) ^ 2 - gamma ^ 2))
                (seq 1 Nk),
         [gamma] ++ map (fun k : nat => 2 * PI * INR k * T) (seq 1 Nk),
         [- lam * gamma], [gamma]).
Proof.
  intros lam gamma T HT Hres.
  unfold DrudeLorentzEnvironment._matsubara_params.
  fold lam gamma T. rewrite range_1_succ.
  rewrite float_div_nonzero by lra. cbn [bind].
  rewrite (mapM_float_div
             (fun k : nat => 8 * lam * gamma * T * PI * INR k * T)
             (fun k : nat => (2 * PI * INR k * T) ^ 2 - gamma ^ 2))
    by assumption.
  reflexivity.
Qed.




(** ** The Bose-Einstein distribution of a bath *)

Lemma bose_einstein_defined {Qobj : Type} (Q : Qobj)
      (ck vk ci vi : list C) (T : R) (w : list R) :
  T <> 0 ->
  _bose_einstein (Bath Q ck vk ci vi (Some T)) w = inr (map (bose T) w).
Proof.
  intros HT. unfold _bose_einstein; simpl.
  rewrite (Reqb_false _ _ HT). unfold zeros_like.
  rewrite (mask_assign_map (fun x => negb (Reqb x 0))). f_equal.
  apply map_ext; intros x. unfold bose. now destruct (Reqb x 0).
Qed.

(** C7. [_bose_einstein] raises an error for a bath whose temperature is
    [None]; for a bath with [T = 0] it returns zero at every frequency;
    and for [T > 0] it returns [1 / (e^(w/T) - 1)] at every frequency
    [w <> 0] and [0] at [w = 0]. *)
Theorem bose_einstein_cases {Qobj : Type} (Q : Qobj)
        (ck vk ci vi : list C) (T : R) (w : list R) :
  0 < T ->
  _bose_einstein (Bath Q ck vk ci vi None) w
  = inl (ValueError "Bath temperature must be specified for this operation")
  /\ _bose_einstein (Bath Q ck vk ci vi (Some 0)) w
     = inr (map (fun _ => 0) w)
  /\ _bose_einstein (Bath Q ck vk ci vi (Some T)) w
     = inr (map (fun x => if Reqb x 0 then 0 else 1 / (exp (x / T) - 1)) w).
Proof.
  intros HT. repeat split.
  - unfold _bose_einstein; simpl. now rewrite (Reqb_true 0 0 eq_refl).
  - rewrite bose_einstein_defined by lra. reflexivity.
Qed.

Lemma bose_einstein_cases_witness :
  _bose_einstein (Bath tt [] [] [] [] None) [0; 1]
  = inl (ValueError "Bath temperature must be specified for this operation")
  /\ _bose_einstein (Bath tt [] [] [] [] (Some 0)) [0; 1]
     = inr (map (fun _ => 0) [0; 1])
  /\ _bose_einstein (Bath tt [] [] [] [] (Some 1)) [0; 1]
     = inr (map (fun x => if Reqb x 0 then 0 else 1 / (exp (x / 1) - 1))
                [0; 1]).
Proof. apply (bose_einstein_cases tt [] [] [] [] 1 [0; 1]). lra. Defined.

(** ** The default power spectrum *)

Lemma mask_assign_update {A : Type} (p : A -> bool) (f : A -> A)
      (xs : list A) :
  mask_assign (map p xs) (map f (mask_select (map p xs) xs)) xs
  = map (fun x => if p x then f x else x) xs.
Proof.
  induction xs as [| x xs IH]; simpl; [reflexivity |].
  destruct (p x); simpl; now rewrite IH.
Qed.



Lemma base_power_spectrum (n_thermal : R -> R -> R) (T : R) (J : R -> R)
      (w : list R) (dt : R) :
  BosonicEnvironment.power_spectrum n_thermal T J w dt
  = map (fun x => detailed_balance n_thermal T J (regularized x)) w.
Proof.
  unfold BosonicEnvironment.power_spectrum.
  rewrite (mask_assign_update (fun x => Reqb x 0) (fun x => x + 1e-6)).
  assert (E : forall x, (if Reqb x 0 then x + 1e-6 else x) = regularized x).
  { intros x. unfold regularized, Reqb.
    destruct (Req_dec_T x 0); [subst; lra | reflexivity]. }
  unfold detailed_balance.
  destruct (Reqb T 0); simpl; rewrite map_map; apply map_ext; intros x;
    now rewrite E.
Qed.

Lemma env_power_spectrum_base (n_thermal : R -> R -> R) (e : sd_environment)
      (w : list R) (dt : R) :
  env_power_spectrum n_thermal e w dt
  = BosonicEnvironment.power_spectrum n_thermal (env_T e)
      (env_spectral_density e) w dt.
Proof. destruct e; reflexivity. Qed.

Lemma bose_denominator_pos (T w : R) : 0 < T -> 0 < w -> 0 < exp (w / T) - 1.
Proof.
  intros HT Hw. rewrite <- exp_0.
  apply Rlt_0_minus, exp_increasing.
  unfold Rdiv. apply Rmult_lt_0_compat; [assumption |].
  now apply Rinv_0_lt_compat.
Qed.



Lemma np_div_tracks (x y q : R) : np_div x y = Some q -> x / y = q.
Proof. unfold np_div. destruct (Reqb y 0); congruence. Qed.


Lemma underdamped_spectral_density_tracks (self : UnderDampedEnvironment.t) :
  tracks (Entries.UnderDamped_spectral_density self)
         (UnderDampedEnvironment.spectral_density self).
Proof. intros x j. apply np_div_tracks. Qed.




(** ** Environments built from a correlation function *)

(** The two masked assignments of [correlation_function] route every time
    [t > 0] to the supplied function and every time [t <= 0] to the
    conjugate of its value at [|t|]. *)
Lemma correlation_function_entries (self : _BosonicEnvironment_fromCF.t)
      (ts : list R) :
  _BosonicEnvironment_fromCF.correlation_function self ts
  = map (fun t =>
           if Rltb 0 t then _BosonicEnvironment_fromCF._cf self t
           else Cconj (_BosonicEnvironment_fromCF._cf self (Rabs t))) ts.
Proof.
  unfold _BosonicEnvironment_fromCF.correlation_function, zeros_like.
  set (cf := _BosonicEnvironment_fromCF._cf self).
  rewrite (mask_assign_map (fun x => Rltb 0 x) cf).
  rewrite !map_map.
  rewrite (mask_assign_map (fun x => negb (Rltb 0 x))
             (fun x => Cconj (cf (Rabs x)))).
  apply map_ext; intros t. now destruct (Rltb 0 t).
Qed.

Lemma correlation_function_hermitian_at (self : _BosonicEnvironment_fromCF.t)
      (t : R) :
  t <> 0 ->
  (if Rltb 0 (- t) then _BosonicEnvironment_fromCF._cf self (- t)
   else Cconj (_BosonicEnvironment_fromCF._cf self (Rabs (- t))))
  = Cconj (if Rltb 0 t then _BosonicEnvironment_fromCF._cf self t
           else Cconj (_BosonicEnvironment_fromCF._cf self (Rabs t))).
Proof.
  intros Ht. destruct (Rlt_dec 0 t) as [Hpos | Hneg].
  - rewrite (Rltb_true 0 t), (Rltb_false 0 (- t)) by lra.
    rewrite Rabs_left by lra. now rewrite Ropp_involutive.
  - rewrite (Rltb_false 0 t), (Rltb_true 0 (- t)) by lra.
    rewrite Rabs_left by lra. now rewrite Cconj_invol.
Qed.

(** C2, as amended. For an environment built from a correlation function
    and an array of times none of which is zero, the correlation function
    at the negated times is the complex conjugate of the correlation
    function at the times; at [t = 0] this symmetry holds exactly when the
    supplied [C(0)] is real. *)
Theorem correlation_function_hermitian
        (self : _BosonicEnvironment_fromCF.t) (ts : list R) :
  Forall (fun t => t <> 0) ts ->
  _BosonicEnvironment_fromCF.correlation_function self (map Ropp ts)
  = map Cconj (_BosonicEnvironment_fromCF.correlation_function self ts)
  /\ (_BosonicEnvironment_fromCF.correlation_function self [- 0]
      = map Cconj (_BosonicEnvironment_fromCF.correlation_function self [0])
      <-> im (_BosonicEnvironment_fromCF._cf self 0) = 0).
Proof.
  intros Hts. rewrite !correlation_function_entries. split.
  - rewrite !map_map. apply map_ext_in. intros t Ht.
    apply correlation_function_hermitian_at.
    rewrite Forall_forall in Hts. now apply Hts.
  - simpl. rewrite Ropp_0, (Rltb_false 0 0), Rabs_R0 by lra.
    rewrite Cconj_invol.
    destruct (_BosonicEnvironment_fromCF._cf self 0) as [x y]; simpl.
    unfold Cconj; simpl. split.
    + intros E. injection E as E. lra.
    + intros E. rewrite E. do 2 f_equal. lra.
Qed.

Lemma correlation_function_hermitian_witness :
  _BosonicEnvironment_fromCF.correlation_function
    (_BosonicEnvironment_fromCF.new 1 (fun t => Cx t 1)) (map Ropp [1; -2])
  = map Cconj
      (_BosonicEnvironment_fromCF.correlation_function
         (_BosonicEnvironment_fromCF.new 1 (fun t => Cx t 1)) [1; -2]).
Proof.
  apply (correlation_function_hermitian
           (_BosonicEnvironment_fromCF.new 1 (fun t => Cx t 1)) [1; -2]).
  repeat constructor; lra.
Defined.

(** C2, as stated, fails at [t = 0]: for the constant correlation function
    [C(t) = i] the value at [-0] is [-i] while the conjugate of the value
    at [0] is [i]. *)
Lemma correlation_function_hermitian_fails_at_0 :
  _BosonicEnvironment_fromCF.correlation_function
    (_BosonicEnvironment_fromCF.new 1 (fun _ => Cj 1)) [- 0]
  <> map Cconj
       (_BosonicEnvironment_fromCF.correlation_function
          (_BosonicEnvironment_fromCF.new 1 (fun _ => Cj 1)) [0]).
Proof.
  rewrite !correlation_function_entries. simpl.
  rewrite Ropp_0, (Rltb_false 0 0) by lra.
  unfold Cconj, Cj; simpl. intros E. injection E as E. lra.
Qed.

(** C10. For an environment built from a correlation function, the
    correlation function at [t = 0] is the complex conjugate of the
    supplied [C(0)]; at every time [t > 0] it is the supplied [C(t)] and at
    every time [t <= 0] the conjugate of the supplied [C(|t|)].  A callable
    [C] is stored as it is.  When the supplied [C(0)] is not real, the
    value at [t = 0] differs from it. *)
Theorem correlation_function_at_0
        (interp1d : list R -> list R -> result (R -> R)) (T : R) (f : R -> C)
        (tlist : option (list R)) (log : list backend_call)
        (self : _BosonicEnvironment_fromCF.t) (ts : list R) :
  let cf := _BosonicEnvironment_fromCF._cf self in
  from_correlation_function interp1d T (Callable f) tlist log
  = (inr (_BosonicEnvironment_fromCF.new T f), log)
  /\ _BosonicEnvironment_fromCF.correlation_function self [0]
     = [Cconj (cf 0)]
  /\ _BosonicEnvironment_fromCF.correlation_function self ts
     = map (fun t => if Rltb 0 t then cf t else Cconj (cf (Rabs t))) ts
  /\ (im (cf 0) <> 0 ->
      _BosonicEnvironment_fromCF.correlation_function self [0] <> [cf 0]).
Proof.
  intros cf. rewrite !correlation_function_entries. fold cf. simpl.
  rewrite (Rltb_false 0 0), Rabs_R0 by lra.
  repeat split.
  intros Him E. injection E as E.
  apply Him. apply (f_equal im) in E. simpl in E. lra.
Qed.

Lemma correlation_function_at_0_witness :
  _BosonicEnvironment_fromCF.correlation_function
    (_BosonicEnvironment_fromCF.new 1 (fun _ => Cj 1)) [0]
  <> [Cj 1].
Proof.
  apply (correlation_function_at_0 (fun _ _ => inr (fun _ => 0)) 1
           (fun _ => Cj 1) None []
           (_BosonicEnvironment_fromCF.new 1 (fun _ => Cj 1)) []).
  simpl; lra.
Defined.

(** ** Construction from a discretized function *)

Section Construction.

Variable interp1d : list R -> list R -> result (R -> R).

(** A mismatched axis stops [_real_interpolation] with the error, and the
    interpolation backend is not called. *)
Lemma real_interpolation_mismatch (ys : list R) (xlist : option (list R))
      (name : string) (log : list backend_call) :
  axis_mismatch xlist (List.length ys) ->
  _real_interpolation interp1d (Discretized ys) xlist name log
  = (inl (interpolation_error name), log).
Proof.
  unfold axis_mismatch, _real_interpolation. destruct xlist as [xs |].
  - intros H. apply Nat.eqb_neq in H. rewrite H. reflexivity.
  - reflexivity.
Qed.

(** With a matching axis the backend is called once, and its interpolant
    or its error is the result. *)
Lemma real_interpolation_match (xs ys : list R) (name : string)
      (log : list backend_call) :
  List.length xs = List.length ys ->
  _real_interpolation interp1d (Discretized ys) (Some xs) name log
  = (interp1d xs ys, Interp1d xs ys :: log).
Proof.
  intros H. unfold _real_interpolation.
  apply Nat.eqb_eq in H. rewrite H. reflexivity.
Qed.

Lemma complex_interpolation_mismatch (zs : list C) (xlist : option (list R))
      (name : string) (log : list backend_call) :
  axis_mismatch xlist (List.length zs) ->
  _complex_interpolation interp1d (Discretized zs) xlist name log
  = (inl (interpolation_error name), log).
Proof.
  intros H. unfold _complex_interpolation, mbind.
  rewrite real_interpolation_mismatch; [reflexivity |].
  now rewrite length_map.
Qed.

End Construction.

(** C6. Constructing an environment from a discretized spectral density,
    power spectrum or correlation function whose axis is missing or has
    another length than the samples raises a [ValueError], and no
    interpolant has been computed by then: the log of backend calls is
    unchanged. *)
Theorem discretized_construction_mismatch
        (interp1d : list R -> list R -> result (R -> R)) (T : R)
        (ys : list R) (zs : list C) (xlist : option (list R))
        (log : list backend_call) :
  axis_mismatch xlist (List.length ys) ->
  axis_mismatch xlist (List.length zs) ->
  from_spectral_density interp1d T (Discretized ys) xlist log
  = (inl (interpolation_error "spectral density"), log)
  /\ from_power_spectrum interp1d T (Discretized ys) xlist log
     = (inl (interpolation_error "power spectrum"), log)
  /\ from_correlation_function interp1d T (Discretized zs) xlist log
     = (inl (interpolation_error "correlation function"), log).
Proof.
  intros Hy Hz.
  unfold from_spectral_density, from_power_spectrum,
    from_correlation_function, _BosonicEnvironment_fromSD.__init__,
    _BosonicEnvironment_fromPS.__init__, _BosonicEnvironment_fromCF.__init__,
    mbind.
  rewrite !real_interpolation_mismatch by assumption.
  rewrite complex_interpolation_mismatch by assumption.
  repeat split.
Qed.

Lemma discretized_construction_mismatch_witness :
  from_spectral_density (fun _ _ => inr (fun _ => 0)) 1
    (Discretized [1; 2]) (Some [0]) []
  = (inl (interpolation_error "spectral density"), [])
  /\ from_power_spectrum (fun _ _ => inr (fun _ => 0)) 1
       (Discretized [1; 2]) (Some [0]) []
     = (inl (interpolation_error "power spectrum"), [])
  /\ from_correlation_function (fun _ _ => inr (fun _ => 0)) 1
       (Discretized [Cj 1; Cj 2]) (Some [0]) []
     = (inl (interpolation_error "correlation function"), []).
Proof.
  apply (discretized_construction_mismatch (fun _ _ => inr (fun _ => 0)) 1
           [1; 2] [Cj 1; Cj 2] (Some [0]) []); simpl; lia.
Defined.

(** ** The bath of the power-spectrum fit *)

Lemma combine_re_im (zs : list C) :
  map (fun '(r, i) => (RtoC r + Cj 1 * RtoC i)%C)
      (combine (map re zs) (map im zs))
  = zs.
Proof.
  induction zs as [| z zs IH]; simpl; [reflexivity |].
  rewrite IH. f_equal. apply C_re_im.
Qed.

Lemma combine_RtoC_re_im (zs : list C) :
  map (fun '(cr, ci) => (cr + Cj 1 * ci)%C)
      (combine (map RtoC (map re zs)) (map RtoC (map im zs)))
  = zs.
Proof.
  induction zs as [| z zs IH]; simpl; [reflexivity |].
  rewrite IH. f_equal. apply C_re_im.
Qed.

(** C8. [from_ps] turns the poles and residues that survive the filtering
    into exponents: the real and the imaginary coefficient lists are the
    real and the imaginary parts of [-i * residue], so that together they
    are the coefficients [c = -i * residue], and both rate lists are
    [v = i * pole]. *)
Theorem from_ps_exponents (Qobj : Type)
        (aaa : (list R -> list R) -> list R -> R -> Z -> aaa_result)
        (filter_poles : list C -> list C -> list C * list C)
        (bath : BosonicReservoir) (x : list R) (tol : R)
        (max_exponents : Z) (Q : Qobj) :
  let fit := aaa (reservoir_power_spectrum bath) x tol (max_exponents * 2)%Z in
  let new_pols := fst (filter_poles (aaa_pol fit) (aaa_res fit)) in
  let new_res := snd (filter_poles (aaa_pol fit) (aaa_res fit)) in
  let b :=
    ApproximatedBosonicBath.from_ps Qobj aaa filter_poles bath x tol
      max_exponents Q in
  ck_real b = map (fun r => RtoC (re (- Cj 1 * r)%C)) new_res
  /\ ck_imag b = map (fun r => RtoC (im (- Cj 1 * r)%C)) new_res
  /\ map (fun '(cr, ci) => (cr + Cj 1 * ci)%C)
         (combine (ck_real b) (ck_imag b))
     = map (fun r => (- Cj 1 * r)%C) new_res
  /\ vk_real b = map (fun p => (Cj 1 * p)%C) new_pols
  /\ vk_imag b = map (fun p => (Cj 1 * p)%C) new_pols.
Proof.
  intros fit new_pols new_res b.
  unfold b, ApproximatedBosonicBath.from_ps. fold fit.
  unfold new_pols, new_res.
  destruct (filter_poles (aaa_pol fit) (aaa_res fit)) as [pols ress]; simpl.
  rewrite combine_re_im, combine_RtoC_re_im, !map_map.
  repeat split.
Qed.

(** ** The bath of the correlation-function fit *)

Lemma combine_app {A B : Type} (l1 l2 : list A) (m1 m2 : list B) :
  List.length l1 = List.length m1 ->
  combine (l1 ++ l2) (m1 ++ m2) = combine l1 m1 ++ combine l2 m2.
Proof.
  revert m1. induction l1 as [| x l1 IH]; intros [| y m1] H;
    simpl in *; try discriminate; [reflexivity |].
  f_equal. apply IH. lia.
Qed.

Lemma combine_map {A B A' B' : Type} (f : A -> A') (g : B -> B')
      (l : list A) (m : list B) :
  combine (map f l) (map g m) = map (fun p => (f (fst p), g (snd p))) (combine l m).
Proof.
  revert m. induction l as [| x l IH]; intros [| y m]; simpl;
    try reflexivity.
  now rewrite IH.
Qed.

Lemma conj_pair_invol (cv : C * C) : conj_pair (conj_pair cv) = cv.
Proof.
  destruct cv as [c v]. unfold conj_pair; simpl. now rewrite !Cconj_invol.
Qed.

(** Coefficients followed by their conjugates, with rates followed by
    their conjugates, are exponents closed under conjugation. *)
Lemma closed_under_conj_pair (X V : list C) :
  List.length X = List.length V ->
  closed_under conj_pair (exponents (X ++ map Cconj X) (V ++ map Cconj V)).
Proof.
  intros Hlen. unfold exponents.
  rewrite combine_app by assumption. rewrite combine_map.
  change (fun p : C * C => (Cconj (fst p), Cconj (snd p))) with conj_pair.
  intros cv Hin. apply in_app_or in Hin. apply in_or_app.
  destruct Hin as [Hin | Hin].
  - right. now apply in_map.
  - left. apply in_map_iff in Hin. destruct Hin as [e [<- He]].
    now rewrite conj_pair_invol.
Qed.

Section CorrelationFit.

Variable Qobj : Type.
Variables (self_Q : Qobj) (self_T : option R).

(** Both layouts of the parameters lead to the same lists. *)
Lemma generate_bath_lists (n : Z) (a b c d a2 b2 c2 d2 : list R) :
  CorrelationFitter._generate_bath Qobj self_Q self_T
    (fit_params n a b c d) (fit_params n a2 b2 c2 d2) n
  = let X := map (fun '(x, y) => Cx (0.5 * x) (0.5 * y))
                 (combine a (fit_d n a d)) in
    let V := map (fun '(x, y) => Cx (- x) (- y)) (combine b c) in
    let X2 := map (fun '(x, y) => Cx (0.5 * y) (- (0.5 * x)))
                  (combine a2 (fit_d n a2 d2)) in
    let V2 := map (fun '(x, y) => Cx (- x) (- y)) (combine b2 c2) in
    inr (Bath self_Q (X ++ map Cconj X) (V ++ map Cconj V)
              (X2 ++ map Cconj X2) (V2 ++ map Cconj V2) self_T).
Proof.
  unfold CorrelationFitter._generate_bath, fit_params, fit_d.
  assert (EX : forall l : list (R * R),
             map (fun '(x, y) => ((RtoC x + Cj 1 * RtoC y) * RtoC 0.5)%C) l
             = map (fun '(x, y) => Cx (0.5 * x) (0.5 * y)) l).
  { intros l. apply map_ext. intros [x y]. ceq. }
  assert (EX2 : forall l : list (R * R),
             map (fun '(x, y) =>
                    (- Cj 1 * (RtoC x + Cj 1 * RtoC y) * RtoC 0.5)%C) l
             = map (fun '(x, y) => Cx (0.5 * y) (- (0.5 * x))) l).
  { intros l. apply map_ext. intros [x y]. ceq. }
  assert (EV : forall l : list (R * R),
             map (fun '(x, y) => (RtoC (- x) - Cj 1 * RtoC y)%C) l
             = map (fun '(x, y) => Cx (- x) (- y)) l).
  { intros l. apply map_ext. intros [x y]. ceq. }
  assert (EV' : forall l : list (R * R),
             map (fun '(x, y) => (RtoC (- x) + Cj 1 * RtoC y)%C) l
             = map Cconj (map (fun '(x, y) => Cx (- x) (- y)) l)).
  { intros l. rewrite map_map. apply map_ext. intros [x y]. ceq. }
  destruct (n =? 4)%Z; simpl; rewrite !EX, !EX2, !EV, !EV'; reflexivity.
Qed.

End CorrelationFit.

(** C5, as amended. For fit parameters whose rows have one length, the
    bath of the correlation-function fit has, in its real and in its
    imaginary lists, with every exponent [(c, v)] also the exponent
    [(conj c, conj v)].  The rates are [-b - i c] followed by [-b + i c];
    the coefficients are [0.5 (a + i d)] for the real part and
    [- i 0.5 (a + i d)] for the imaginary part, each followed by its
    conjugates. *)
Theorem correlation_fit_conjugate_pairs (Qobj : Type) (self_Q : Qobj)
        (self_T : option R) (n : Z) (a b c d a2 b2 c2 d2 : list R) :
  List.length a = List.length b -> List.length b = List.length c ->
  List.length (fit_d n a d) = List.length a ->
  List.length a2 = List.length b2 -> List.length b2 = List.length c2 ->
  List.length (fit_d n a2 d2) = List.length a2 ->
  exists bath,
    CorrelationFitter._generate_bath Qobj self_Q self_T
      (fit_params n a b c d) (fit_params n a2 b2 c2 d2) n = inr bath
    /\ closed_under conj_pair (exponents (ck_real bath) (vk_real bath))
    /\ closed_under conj_pair (exponents (ck_imag bath) (vk_imag bath))
    /\ ck_real bath
       = map (fun '(x, y) => Cx (0.5 * x) (0.5 * y)) (combine a (fit_d n a d))
         ++ map (fun '(x, y) => Cx (0.5 * x) (- (0.5 * y)))
                (combine a (fit_d n a d))
    /\ vk_real bath
       = map (fun '(x, y) => Cx (- x) (- y)) (combine b c)
         ++ map (fun '(x, y) => Cx (- x) y) (combine b c)
    /\ ck_imag bath
       = map (fun '(x, y) => Cx (0.5 * y) (- (0.5 * x)))
             (combine a2 (fit_d n a2 d2))
         ++ map (fun '(x, y) => Cx (0.5 * y) (0.5 * x))
                (combine a2 (fit_d n a2 d2))
    /\ vk_imag bath
       = map (fun '(x, y) => Cx (- x) (- y)) (combine b2 c2)
         ++ map (fun '(x, y) => Cx (- x) y) (combine b2 c2).
Proof.
  intros Hab Hbc Hd Hab2 Hbc2 Hd2.
  rewrite generate_bath_lists. cbv zeta. eexists. split; [reflexivity |].
  cbn [ck_real vk_real ck_imag vk_imag].
  split; [| split].
  - apply closed_under_conj_pair.
    rewrite !length_map, !length_combine. lia.
  - apply closed_under_conj_pair.
    rewrite !length_map, !length_combine. lia.
  - rewrite !map_map.
    repeat split; f_equal; apply map_ext; intros [x y]; ceq.
Qed.

Lemma correlation_fit_conjugate_pairs_witness :
  exists bath,
    CorrelationFitter._generate_bath unit tt None
      [[1]; [-1]; [1]] [[2]; [-3]; [4]] 3 = inr bath
    /\ closed_under conj_pair (exponents (ck_real bath) (vk_real bath))
    /\ closed_under conj_pair (exponents (ck_imag bath) (vk_imag bath))
    /\ ck_real bath = [Cx (0.5 * 1) (0.5 * 0); Cx (0.5 * 1) (- (0.5 * 0))]
    /\ vk_real bath = [Cx (- -1) (- 1); Cx (- -1) 1]
    /\ ck_imag bath = [Cx (0.5 * 0) (- (0.5 * 2)); Cx (0.5 * 0) (0.5 * 2)]
    /\ vk_imag bath = [Cx (- -3) (- 4); Cx (- -3) 4].
Proof.
  apply (correlation_fit_conjugate_pairs unit tt None 3
           [1] [-1] [1] [] [2] [-3] [4] []); reflexivity.
Defined.

(** C5, as stated, fails: the fit with [a = 1], [b = -1], [c = 1] gives the
    exponent [(0.5, 1 - i)], and [(0.5, -1 - i)], its partner with the rate
    [- conj v], is not among the exponents. *)
Lemma correlation_fit_no_negated_partner :
  exists bath,
    CorrelationFitter._generate_bath unit tt None
      [[1]; [-1]; [1]] [[]; []; []] 3 = inr bath
    /\ ~ closed_under conj_neg_pair (exponents (ck_real bath) (vk_real bath)).
Proof.
  eexists. split; [reflexivity |].
  intros H. specialize (H _ (or_introl eq_refl)).
  unfold conj_neg_pair in H. simpl in H.
  destruct H as [H | [H | []]]; injection H; intros; csimpl; lra.
Qed.

(** ** The bath of the spectral-density fit *)

Lemma mapM_ext_in {A B : Type} (f g : A -> result B) (xs : list A) :
  (forall x, In x xs -> f x = g x) -> mapM f xs = mapM g xs.
Proof.
  induction xs as [| x xs IH]; intros H; simpl; [reflexivity |].
  rewrite (H x (or_introl eq_refl)), IH; [reflexivity |].
  intros y Hy. apply H. now right.
Qed.

Lemma mapM_map {A A' B : Type} (f : A' -> result B) (k : A -> A')
      (xs : list A) :
  mapM f (map k xs) = mapM (fun x => f (k x)) xs.
Proof.
  induction xs as [| x xs IH]; simpl; [reflexivity |]. now rewrite IH.
Qed.

Lemma getitem_cons {A : Type} (x : A) (xs : list A) (i : nat) :
  (i < List.length xs)%nat -> getitem (x :: xs) (S i) = getitem xs i.
Proof.
  intros Hi. unfold getitem; simpl.
  destruct (nth_error xs i) eqn:E; [reflexivity |].
  apply nth_error_None in E. lia.
Qed.

(** A comprehension over [range(len(xs))] that reads [xs[i]] and [ys[i]]
    succeeds when [ys] is at least as long as [xs]. *)
Lemma mapM_getitem2 {A B D : Type} (F : A -> B -> D) (xs : list A)
      (ys : list B) :
  (List.length xs <= List.length ys)%nat ->
  mapM (fun i => x <- getitem xs i ;; y <- getitem ys i ;; inr (F x y))
       (range 0 (List.length xs))
  = inr (map (fun p => F (fst p) (snd p)) (combine xs ys)).
Proof.
  unfold range. rewrite Nat.sub_0_r.
  revert ys. induction xs as [| x xs IH]; intros ys Hlen; [reflexivity |].
  destruct ys as [| y ys]; simpl in Hlen; [lia |].
  cbn [List.length seq mapM]. unfold getitem at 1 2. cbn [nth_error bind].
  rewrite <- seq_shift, mapM_map.
  rewrite (mapM_ext_in _
             (fun i => x0 <- getitem xs i ;; y0 <- getitem ys i ;;
                       inr (F x0 y0))).
  - rewrite IH by lia. reflexivity.
  - intros i Hi. apply in_seq in Hi.
    rewrite !getitem_cons by lia. reflexivity.
Qed.

Lemma combine_map_combine {A B D E : Type} (g : D * B -> E) (xs : list A)
      (ys : list B) (zs : list D) :
  combine xs (combine ys (map g (combine zs ys)))
  = map (fun t => (fst t, (fst (snd t), g (snd (snd t), fst (snd t)))))
        (combine xs (combine ys zs)).
Proof.
  revert ys zs. induction xs as [| x xs IH]; intros ys zs; [reflexivity |].
  destruct ys as [| y ys]; [reflexivity |].
  destruct zs as [| z zs]; [reflexivity |].
  simpl. now rewrite IH.
Qed.

Lemma combine_map_l {A A' B : Type} (f : A -> A') (l : list A) (m : list B) :
  combine (map f l) m = map (fun p => (f (fst p), snd p)) (combine l m).
Proof.
  revert m. induction l as [| x l IH]; intros [| y m]; simpl;
    try reflexivity.
  now rewrite IH.
Qed.

(** The argument of the square root in [_generate_bath]: [0j / 2] is added
    to [gamma[i]], which is not halved. *)
Lemma generate_bath_w0 (b c : R) :
  Csqrt (Csqr (RtoC c + Cj 0) + Csqr (RtoC b + Cj 0 / RtoC 2))%C
  = fitted_w0 b c.
Proof.
  unfold fitted_w0. f_equal. apply C_eq; csimpl; field.
Qed.

Lemma generate_bath_lam (a : R) : Csqrt (RtoC a + Cj 0)%C = fitted_lam a.
Proof. unfold fitted_lam. now rewrite Cadd_0j. Qed.

(** With the damping [2 b], the underdamped detuning
    [w0^2 - (gamma / 2)^2] of the fitted term is [c^2]. *)
Lemma fitted_w0_detuning (b c : R) :
  (Csqr (fitted_w0 b c) - RtoC ((2 * b / 2) ^ 2))%C = RtoC (c ^ 2).
Proof.
  unfold fitted_w0. rewrite Csqrt_sqr. apply C_eq; csimpl; field.
Qed.

(** The convention of [_generate_bath] is the one that identifies a term
    of the fit function with an underdamped spectral density: coupling
    strength [sqrt(a)], damping [2 b] and resonance [sqrt(c^2 + b^2)]. *)
Lemma meier_tannor_term_underdamped (T a b c w : R) :
  0 <= a ->
  UnderDampedEnvironment.spectral_density
    (UnderDampedEnvironment.new T (sqrt a) (2 * b) (sqrt (c ^ 2 + b ^ 2))) w
  = SpectralFitter._meier_tannor_SD w [a] [b] [c].
Proof.
  intros Ha.
  unfold UnderDampedEnvironment.spectral_density,
    SpectralFitter._meier_tannor_SD.
  cbn [UnderDampedEnvironment.lam UnderDampedEnvironment.gamma
       UnderDampedEnvironment.w0 combine map fold_left].
  rewrite (pow2_sqrt a Ha).
  assert (Hcb : 0 <= c ^ 2 + b ^ 2) by nra.
  rewrite (pow2_sqrt _ Hcb).
  rewrite Rplus_0_l. unfold Rdiv.
  rewrite (Rmult_assoc (2 * a * b * w)), <- Rinv_mult.
  f_equal; [ring |]. f_equal. ring.
Qed.

Lemma spec_w0_differs : fitted_w0 2 0 <> spec_w0 2 0.
Proof.
  unfold fitted_w0, spec_w0. intros E. apply Csqrt_inj in E.
  apply (f_equal re) in E. cbn [re RtoC] in E. lra.
Qed.

Section SpectralFit.

Variable Qobj : Type.
Variable matsubara_params :
  C -> R -> C -> option R -> nat -> list C * list C * list C * list C.
Variables (self_Q : Qobj) (self_T : option R) (Nk : nat).

(** The Matsubara expansion of one fitted term [(a, b, c)]. *)
Let term (t : R * (R * R)) : list C * list C * list C * list C :=
  matsubara_params (fitted_lam (fst t)) (2 * fst (snd t))
    (fitted_w0 (fst (snd t)) (snd (snd t))) self_T Nk.

Lemma generate_bath_loop (l : list (R * (R * R)))
      (ckAR vkAR ckAI vkAI : list C) :
  fold_left
    (fun '(ckAR, vkAR, ckAI, vkAI) '(lamt, (Gamma, Om)) =>
       let '(c0, c1, c2, c3) :=
         matsubara_params lamt (2 * Gamma) (Om + Cj 0)%C self_T Nk in
       (ckAR ++ c0, vkAR ++ c1, ckAI ++ c2, vkAI ++ c3))
    (map (fun t => (Csqrt (RtoC (fst t) + Cj 0)%C,
                    (fst (snd t),
                     Csqrt (Csqr (RtoC (snd (snd t)) + Cj 0)
                            + Csqr (RtoC (fst (snd t)) + Cj 0 / RtoC 2))%C)))
         l)
    (ckAR, vkAR, ckAI, vkAI)
  = (ckAR ++ flat_map (fun t => fst (fst (fst (term t)))) l,
     vkAR ++ flat_map (fun t => snd (fst (fst (term t)))) l,
     ckAI ++ flat_map (fun t => snd (fst (term t))) l,
     vkAI ++ flat_map (fun t => snd (term t)) l).
Proof.
  revert ckAR vkAR ckAI vkAI.
  induction l as [| [a [b c]] l IH]; intros ckAR vkAR ckAI vkAI.
  - simpl. now rewrite !app_nil_r.
  - cbn [map fold_left flat_map fst snd].
    rewrite generate_bath_lam, generate_bath_w0, Cadd_0j.
    unfold term. cbn [fst snd].
    destruct (matsubara_params (fitted_lam a) (2 * b) (fitted_w0 b c)
                self_T Nk) as [[[c0 c1] c2] c3].
    rewrite IH. cbn [fst snd]. rewrite !app_assoc. reflexivity.
Qed.

Lemma generate_bath_expansion (a b c : list R) :
  (List.length c <= List.length b)%nat ->
  SpectralFitter._generate_bath Qobj matsubara_params self_Q self_T
    [a; b; c] Nk
  = inr (Bath self_Q
           (flat_map (fun t => fst (fst (fst (term t)))) (zip3 a b c))
           (flat_map (fun t => snd (fst (fst (term t)))) (zip3 a b c))
           (flat_map (fun t => snd (fst (term t))) (zip3 a b c))
           (flat_map (fun t => snd (term t)) (zip3 a b c))
           self_T).
Proof.
  intros Hlen. unfold SpectralFitter._generate_bath.
  cbn [unpack3 bind].
  rewrite (mapM_getitem2
             (fun w0_i gamma_i =>
                Csqrt (Csqr (RtoC w0_i + Cj 0)
                       + Csqr (RtoC gamma_i + Cj 0 / RtoC 2))%C)
             c b Hlen).
  cbn [bind].
  rewrite (combine_map_combine
             (fun p => Csqrt (Csqr (RtoC (fst p) + Cj 0)
                              + Csqr (RtoC (snd p) + Cj 0 / RtoC 2))%C)).
  rewrite combine_map_l, map_map. cbn [fst snd].
  rewrite (generate_bath_loop (combine a (combine b c)) [] [] [] []).
  reflexivity.
Qed.

End SpectralFit.

(** C1, as amended. [SpectralFitter._generate_bath] turns each fitted
    triple [(a, b, c)] into the coupling strength [sqrt(a)], the damping
    [2 b] and the resonance frequency [sqrt(c^2 + b^2)], with complex
    square roots, expands each triple into Matsubara exponents with these
    parameters, and concatenates the exponents in the order of the
    triples. *)
Theorem spectral_fit_generate_bath (Qobj : Type)
        (matsubara_params :
           C -> R -> C -> option R -> nat ->
           list C * list C * list C * list C)
        (self_Q : Qobj) (self_T : option R) (Nk : nat) (a b c : list R) :
  (List.length c <= List.length b)%nat ->
  let term := fun '(a_i, (b_i, c_i)) =>
    matsubara_params (Csqrt (RtoC a_i)) (2 * b_i)
      (Csqrt (RtoC (c_i ^ 2 + b_i ^ 2))) self_T Nk in
  SpectralFitter._generate_bath Qobj matsubara_params self_Q self_T
    [a; b; c] Nk
  = inr (Bath self_Q
           (flat_map (fun t => fst (fst (fst (term t)))) (zip3 a b c))
           (flat_map (fun t => snd (fst (fst (term t)))) (zip3 a b c))
           (flat_map (fun t => snd (fst (term t))) (zip3 a b c))
           (flat_map (fun t => snd (term t)) (zip3 a b c))
           self_T).
Proof.
  intros Hlen term. rewrite generate_bath_expansion by assumption.
  f_equal. f_equal; apply flat_map_ext; intros [a_i [b_i c_i]]; reflexivity.
Qed.

Lemma spectral_fit_generate_bath_witness :
  SpectralFitter._generate_bath unit echo_params tt None [[1]; [2]; [0]] 0
  = inr (Bath tt [Csqrt (RtoC 1)] [RtoC (2 * 2)]
              [Csqrt (RtoC (0 ^ 2 + 2 ^ 2))] [] None).
Proof.
  apply (spectral_fit_generate_bath unit echo_params tt None 0 [1] [2] [0]).
  simpl; lia.
Defined.

(** C1, as stated, fails: for the triple [(1, 2, 0)] the resonance
    frequency handed to the Matsubara expansion is [sqrt(0^2 + 2^2)], and
    not [sqrt(0^2 + (2/2)^2)]. *)
Lemma spectral_fit_w0_not_halved :
  SpectralFitter._generate_bath unit echo_params tt None [[1]; [2]; [0]] 0
  = inr (Bath tt [fitted_lam 1] [RtoC (2 * 2)] [fitted_w0 2 0] [] None)
  /\ fitted_w0 2 0 <> spec_w0 2 0.
Proof.
  split; [| apply spec_w0_differs].
  now rewrite generate_bath_expansion by (simpl; lia).
Qed.

(** * Part III: further properties of the code *)

(** ** Sums *)

Lemma fold_left_Rplus (xs : list R) (a : R) :
  fold_left Rplus xs a = a + Rsum xs.
Proof.
  revert a. induction xs as [| x xs IH]; intros a; simpl; [lra |].
  rewrite IH. lra.
Qed.

Lemma Rsum_cons (x : R) (xs : list R) : Rsum (x :: xs) = x + Rsum xs.
Proof. reflexivity. Qed.

Lemma Rsum_app (xs ys : list R) : Rsum (xs ++ ys) = Rsum xs + Rsum ys.
Proof. induction xs as [| x xs IH]; simpl; [lra | rewrite IH; lra]. Qed.

Lemma Rsum_map_plus {A : Type} (f g : A -> R) (l : list A) :
  Rsum (map (fun x => f x + g x) l) = Rsum (map f l) + Rsum (map g l).
Proof. induction l as [| x l IH]; simpl; [lra | rewrite IH; lra]. Qed.

Lemma Rsum_map_opp {A : Type} (f : A -> R) (l : list A) :
  Rsum (map (fun x => - f x) l) = - Rsum (map f l).
Proof. induction l as [| x l IH]; simpl; [lra | rewrite IH; lra]. Qed.

Lemma Rsum_map_ext {A : Type} (f g : A -> R) (l : list A) :
  (forall x, f x = g x) -> Rsum (map f l) = Rsum (map g l).
Proof. intros H. f_equal. apply map_ext, H. Qed.

Lemma Cadd_assoc (x y z : C) : (x + (y + z))%C = (x + y + z)%C.
Proof. ceq. Qed.

Lemma Cadd_comm (x y : C) : (x + y)%C = (y + x)%C.
Proof. ceq. Qed.

Lemma Cadd_0_l (z : C) : (RtoC 0 + z)%C = z.
Proof. ceq. Qed.

Lemma fold_left_Cadd (zs : list C) (a : C) :
  fold_left Cadd zs a = (a + Csum zs)%C.
Proof.
  unfold Csum. revert a. induction zs as [| z zs IH]; intros a; simpl.
  - ceq.
  - rewrite IH, (IH (RtoC 0 + z)%C), Cadd_0_l. now rewrite Cadd_assoc.
Qed.

Lemma Csum_nil : Csum [] = RtoC 0.
Proof. reflexivity. Qed.

Lemma Csum_cons (z : C) (zs : list C) : Csum (z :: zs) = (z + Csum zs)%C.
Proof. unfold Csum at 1. simpl. now rewrite fold_left_Cadd, Cadd_0_l. Qed.

Lemma Csum_app (xs ys : list C) : Csum (xs ++ ys) = (Csum xs + Csum ys)%C.
Proof.
  induction xs as [| x xs IH]; simpl.
  - now rewrite Csum_nil, Cadd_0_l.
  - now rewrite !Csum_cons, IH, Cadd_assoc.
Qed.

Lemma re_Csum (zs : list C) : re (Csum zs) = Rsum (map re zs).
Proof.
  induction zs as [| z zs IH]; [reflexivity |].
  rewrite Csum_cons. simpl. now rewrite IH.
Qed.

Lemma im_Csum (zs : list C) : im (Csum zs) = Rsum (map im zs).
Proof.
  induction zs as [| z zs IH]; [reflexivity |].
  rewrite Csum_cons. simpl. now rewrite IH.
Qed.

(** ** The default power spectrum: detailed balance and round trip *)

Lemma regularized_id (w : R) : w <> 0 -> regularized w = w.
Proof. intros H. unfold regularized. now rewrite Reqb_false. Qed.

Lemma np_sign_pos (w : R) : 0 < w -> np_sign w = 1.
Proof.
  intros H. unfold np_sign. now rewrite Rltb_false, Rltb_true by lra.
Qed.

Lemma np_sign_neg (w : R) : w < 0 -> np_sign w = -1.
Proof. intros H. unfold np_sign. now rewrite Rltb_true by lra. Qed.

Lemma exp_div_neg (w T : R) : exp (- w / T) = / exp (w / T).
Proof.
  replace (- w / T) with (- (w / T)) by (unfold Rdiv; ring).
  apply exp_Ropp.
Qed.

Lemma exp_div_ne_1 (w T : R) : 0 < T -> w <> 0 -> exp (w / T) <> 1.
Proof.
  intros HT Hw E. rewrite <- exp_0 in E. apply exp_inv in E.
  apply Hw. unfold Rdiv in E.
  apply Rmult_integral in E. destruct E as [E | E]; [assumption |].
  pose proof (Rinv_0_lt_compat T HT). lra.
Qed.

(** Detailed balance. When [n_thermal] is the Bose-Einstein occupation
    number, the default power spectrum at a temperature [T > 0] satisfies
    [S(-w) = e^(-w/T) S(w)] at every frequency [w <> 0], whatever the
    spectral density is. *)
Theorem default_power_spectrum_detailed_balance
        (n_thermal : R -> R -> R) (e : sd_environment) (w dt : R) :
  (forall x, n_thermal x (env_T e) = 1 / (exp (x / env_T e) - 1)) ->
  0 < env_T e -> w <> 0 ->
  env_power_spectrum n_thermal e [- w] dt
  = map (fun s => exp (- w / env_T e) * s)
        (env_power_spectrum n_thermal e [w] dt).
Proof.
  intros Hn HT Hw.
  rewrite !env_power_spectrum_base, !base_power_spectrum. simpl.
  rewrite !regularized_id by lra. unfold detailed_balance.
  rewrite Reqb_false by lra. rewrite !Hn.
  f_equal. rewrite exp_div_neg.
  pose proof (exp_pos (w / env_T e)) as Hpos.
  pose proof (exp_div_ne_1 w (env_T e) HT Hw) as Hne.
  set (E := exp (w / env_T e)) in *.
  assert (HE : / E - 1 <> 0).
  { intros H. apply Hne. apply Rminus_diag_uniq in H.
    rewrite <- (Rinv_inv E), H. apply Rinv_1. }
  destruct (Rdichotomy w 0 Hw) as [Hp | Hp].
  - rewrite (np_sign_neg w), (np_sign_pos (- w)) by lra.
    rewrite (Rabs_left w), (Rabs_right (- w)) by lra.
    field. repeat split; intros H; apply Hne; lra.
  - rewrite (np_sign_pos w), (np_sign_neg (- w)) by lra.
    rewrite (Rabs_left (- w)), (Rabs_right w), Ropp_involutive by lra.
    field. repeat split; intros H; apply Hne; lra.
Qed.

Lemma default_power_spectrum_detailed_balance_witness :
  env_power_spectrum (fun x T => 1 / (exp (x / T) - 1))
    (EnvDrudeLorentz (DrudeLorentzEnvironment.new 1 1 1)) [- 2] 1e-5
  = map (fun s => exp (- 2 / 1) * s)
        (env_power_spectrum (fun x T => 1 / (exp (x / T) - 1))
           (EnvDrudeLorentz (DrudeLorentzEnvironment.new 1 1 1)) [2] 1e-5).
Proof.
  apply (default_power_spectrum_detailed_balance
           (fun x T => 1 / (exp (x / T) - 1))
           (EnvDrudeLorentz (DrudeLorentzEnvironment.new 1 1 1)) 2 1e-5).
  - reflexivity.
  - simpl; lra.
  - lra.
Defined.

Lemma drude_lorentz_sd_odd (e : DrudeLorentzEnvironment.t) (w : R) :
  DrudeLorentzEnvironment.spectral_density e (- w)
  = - DrudeLorentzEnvironment.spectral_density e w.
Proof.
  unfold DrudeLorentzEnvironment.spectral_density.
  replace ((- w) ^ 2) with (w ^ 2) by ring. unfold Rdiv. ring.
Qed.

Lemma underdamped_sd_odd (e : UnderDampedEnvironment.t) (w : R) :
  UnderDampedEnvironment.spectral_density e (- w)
  = - UnderDampedEnvironment.spectral_density e w.
Proof.
  unfold UnderDampedEnvironment.spectral_density.
  replace ((- w) ^ 2) with (w ^ 2) by ring.
  replace ((UnderDampedEnvironment.gamma e * - w) ^ 2)
    with ((UnderDampedEnvironment.gamma e * w) ^ 2) by ring.
  unfold Rdiv. ring.
Qed.

Lemma odd_extension (J : R -> R) (w : R) :
  (forall x, J (- x) = - J x) -> w <> 0 -> np_sign w * J (Rabs w) = J w.
Proof.
  intros Hodd Hw. destruct (Rdichotomy w 0 Hw) as [Hp | Hp].
  - rewrite np_sign_neg, Rabs_left, Hodd by lra. ring.
  - rewrite np_sign_pos, Rabs_right by lra. ring.
Qed.

(** The spectral densities of the Drude-Lorentz and of the underdamped
    environment are odd functions, so that at a temperature [T <> 0] their
    power spectrum is [2 J(w) (n(w, T) + 1)] at every frequency [w <> 0],
    the negative ones included: the odd extension [sign(w) J(|w|)] is [J]
    itself. *)
Theorem analytic_power_spectrum_odd_extension
        (n_thermal : R -> R -> R) (dl : DrudeLorentzEnvironment.t)
        (ud : UnderDampedEnvironment.t) (w dt : R) :
  w <> 0 ->
  DrudeLorentzEnvironment.T dl <> 0 -> UnderDampedEnvironment.T ud <> 0 ->
  DrudeLorentzEnvironment.spectral_density dl (- w)
  = - DrudeLorentzEnvironment.spectral_density dl w
  /\ UnderDampedEnvironment.spectral_density ud (- w)
     = - UnderDampedEnvironment.spectral_density ud w
  /\ DrudeLorentzEnvironment.power_spectrum n_thermal dl [w] dt
     = [2 * DrudeLorentzEnvironment.spectral_density dl w
        * (n_thermal w (DrudeLorentzEnvironment.T dl) + 1)]
  /\ UnderDampedEnvironment.power_spectrum n_thermal ud [w] dt
     = [2 * UnderDampedEnvironment.spectral_density ud w
        * (n_thermal w (UnderDampedEnvironment.T ud) + 1)].
Proof.
  intros Hw Hdl Hud.
  split; [apply drude_lorentz_sd_odd |].
  split; [apply underdamped_sd_odd |].
  unfold DrudeLorentzEnvironment.power_spectrum,
    UnderDampedEnvironment.power_spectrum.
  rewrite !base_power_spectrum. simpl.
  rewrite regularized_id by assumption. unfold detailed_balance.
  rewrite !Reqb_false by assumption.
  split; f_equal.
  - rewrite <- (odd_extension
                  (DrudeLorentzEnvironment.spectral_density dl) w
                  (drude_lorentz_sd_odd dl) Hw).
    ring.
  - rewrite <- (odd_extension
                  (UnderDampedEnvironment.spectral_density ud) w
                  (underdamped_sd_odd ud) Hw).
    ring.
Qed.

Lemma analytic_power_spectrum_odd_extension_witness :
  DrudeLorentzEnvironment.power_spectrum (fun _ _ => 0)
    (DrudeLorentzEnvironment.new 1 1 1) [- 1] 1e-5
  = [2 * DrudeLorentzEnvironment.spectral_density
           (DrudeLorentzEnvironment.new 1 1 1) (- 1)
     * (0 + 1)].
Proof.
  apply (analytic_power_spectrum_odd_extension (fun _ _ => 0)
           (DrudeLorentzEnvironment.new 1 1 1)
           (UnderDampedEnvironment.new 1 1 1 1) (- 1) 1e-5);
    simpl; lra.
Defined.

(** Round trip. The spectral density that an environment built from a
    power spectrum derives from it, [S / (n + 1) / 2], gives back the
    spectral density [J] at every frequency [w > 0] when the power
    spectrum is the default one of [J], at a temperature [T <> 0] and
    where [n(w, T) + 1] is not zero. *)
Theorem spectral_density_round_trip
        (n_thermal : R -> R -> R) (e : sd_environment) (w dt : R) :
  0 < w -> env_T e <> 0 -> n_thermal w (env_T e) + 1 <> 0 ->
  _BosonicEnvironment_fromPS.spectral_density n_thermal
    (_BosonicEnvironment_fromPS.new (env_T e)
       (fun x => nth 0 (env_power_spectrum n_thermal e [x] dt) 0))
    [w]
  = [env_spectral_density e w].
Proof.
  intros Hw HT Hn.
  unfold _BosonicEnvironment_fromPS.spectral_density,
    _BosonicEnvironment_fromPS.power_spectrum.
  cbn [_BosonicEnvironment_fromPS._ps _BosonicEnvironment_fromPS.T
       map combine fst snd].
  rewrite env_power_spectrum_base, base_power_spectrum.
  cbn [map nth]. rewrite regularized_id by lra. unfold detailed_balance.
  rewrite Reqb_false by assumption.
  rewrite np_sign_pos, Rabs_right by lra.
  f_equal. field. assumption.
Qed.

Lemma spectral_density_round_trip_witness :
  _BosonicEnvironment_fromPS.spectral_density (fun _ _ => 1)
    (_BosonicEnvironment_fromPS.new 1
       (fun x =>
          nth 0 (env_power_spectrum (fun _ _ => 1)
                   (EnvOhmic (OhmicEnvironment.new 1 1 1 1)) [x] 1e-5) 0))
    [2]
  = [OhmicEnvironment.spectral_density (OhmicEnvironment.new 1 1 1 1) 2].
Proof.
  apply (spectral_density_round_trip (fun _ _ => 1)
           (EnvOhmic (OhmicEnvironment.new 1 1 1 1)) 2 1e-5);
    simpl; lra.
Defined.

(** ** The correlation function of the Drude-Lorentz environment *)

Lemma combine_map_same {A B D : Type} (f : A -> B) (g : A -> D)
      (l : list A) :
  combine (map f l) (map g l) = map (fun x => (f x, g x)) l.
Proof. induction l as [| x l IH]; simpl; [reflexivity | now rewrite IH]. Qed.



(** ** The Matsubara expansion of the underdamped environment *)

Lemma Cconj_RtoC (x : R) : Cconj (RtoC x) = RtoC x.
Proof. ceq. Qed.

Lemma Cconj_add (z w : C) : Cconj (z + w) = (Cconj z + Cconj w)%C.
Proof. ceq. Qed.

Lemma Cconj_sub (z w : C) : Cconj (z - w) = (Cconj z - Cconj w)%C.
Proof. ceq. Qed.

Lemma Cconj_opp (z : C) : Cconj (- z) = (- Cconj z)%C.
Proof. ceq. Qed.

Lemma Cconj_mul (z w : C) : Cconj (z * w) = (Cconj z * Cconj w)%C.
Proof. ceq. Qed.

Lemma Cconj_div (z w : C) : Cconj (z / w) = (Cconj z / Cconj w)%C.
Proof.
  apply C_eq; unfold Cdiv, Cconj; cbn [re im]; unfold Rdiv;
    replace (re w * re w + - im w * - im w)
      with (re w * re w + im w * im w) by ring;
    ring.
Qed.

Lemma Cconj_sqr (z : C) : Cconj (Csqr z) = Csqr (Cconj z).
Proof. unfold Csqr. apply Cconj_mul. Qed.

Lemma Cconj_exp (z : C) : Cconj (Cexp z) = Cexp (Cconj z).
Proof.
  apply C_eq; unfold Cexp, Cconj; cbn [re im].
  - now rewrite cos_neg.
  - rewrite sin_neg. ring.
Qed.

Lemma Cconj_tanh (z : C) : Cconj (Ctanh z) = Ctanh (Cconj z).
Proof.
  unfold Ctanh.
  now rewrite Cconj_div, Cconj_sub, Cconj_add, !Cconj_exp, Cconj_opp.
Qed.

Lemma Cconj_j (y : R) : Cconj (Cj y) = (- Cj y)%C.
Proof. ceq. Qed.

Lemma Cmul_comm (z w : C) : (z * w)%C = (w * z)%C.
Proof. ceq. Qed.

Lemma Cmul_opp_l (z w : C) : (- z * w)%C = (- (z * w))%C.
Proof. ceq. Qed.

Lemma Cadd_opp_r (z w : C) : (z + - w)%C = (z - w)%C.
Proof. ceq. Qed.

Lemma Copp_invol (z : C) : (- - z)%C = z.
Proof. ceq. Qed.

Lemma Csub_opp_r (z w : C) : (z - - w)%C = (z + w)%C.
Proof. ceq. Qed.

(** Pushing the conjugation to the leaves of an expression. *)
Ltac push_conj :=
  repeat (rewrite ?Cconj_div, ?Cconj_mul, ?Cconj_add, ?Cconj_sub,
            ?Cconj_opp, ?Cconj_sqr, ?Cconj_tanh, ?Cconj_exp,
            ?Cconj_RtoC, ?Cconj_j, ?Cmul_opp_l, ?Cadd_opp_r, ?Csub_opp_r,
            ?Copp_invol).

(** Two exponents that are conjugates of each other, followed by
    exponents that are their own conjugates, are closed under
    conjugation. *)
Lemma closed_under_conj_pair_leading (c v : C) (rest : list (C * C)) :
  Forall (fun cv => conj_pair cv = cv) rest ->
  closed_under conj_pair ((c, v) :: (Cconj c, Cconj v) :: rest).
Proof.
  intros Hrest cv Hin. destruct Hin as [<- | [<- | Hin]].
  - right; left. reflexivity.
  - left. unfold conj_pair; simpl. now rewrite !Cconj_invol.
  - rewrite Forall_forall in Hrest. rewrite (Hrest cv Hin).
    now right; right.
Qed.

(** *** The divisors of the underdamped Matsubara expansion *)

Lemma pow2_pos (x : R) : x <> 0 -> 0 < x ^ 2.
Proof.
  intros Hx. simpl. rewrite Rmult_1_r. now apply (Rsqr_pos_lt x).
Qed.

Lemma exp_neg_ne (x : R) : x <> 0 -> exp x <> exp (- x).
Proof. intros Hx E. apply exp_inv in E. lra. Qed.

Lemma Cexp_add_neg_nonzero (z : C) :
  re z <> 0 -> Cnonzero (Cexp z + Cexp (- z)).
Proof.
  intros Hx. unfold Cnonzero, Cexp, Cadd, Copp; cbn [re im].
  rewrite cos_neg, sin_neg.
  pose proof (exp_pos (re z)) as Ha. pose proof (exp_pos (- re z)) as Hb.
  pose proof (exp_neg_ne (re z) Hx) as Hab.
  pose proof (sin2_cos2 (im z)) as Hsc. unfold Rsqr in Hsc.
  set (a := exp (re z)) in *. set (b := exp (- re z)) in *.
  set (c := cos (im z)) in *. set (s := sin (im z)) in *.
  intros E.
  assert (E' : (a + b) ^ 2 * c ^ 2 + (a - b) ^ 2 * s ^ 2 = 0) by (simpl; lra).
  assert (H1 : (a - b) ^ 2 * (c ^ 2 + s ^ 2) <= 0) by nra.
  assert (H2 : 0 < (a - b) ^ 2) by (apply pow2_pos; lra).
  assert (H3 : c ^ 2 + s ^ 2 = 1) by (simpl; lra).
  rewrite H3 in H1. lra.
Qed.

Lemma Cexp_sub_neg_nonzero (z : C) :
  re z <> 0 -> Cnonzero (Cexp z - Cexp (- z)).
Proof.
  intros Hx. unfold Cnonzero, Cexp, Csub, Copp; cbn [re im].
  rewrite cos_neg, sin_neg.
  pose proof (exp_pos (re z)) as Ha. pose proof (exp_pos (- re z)) as Hb.
  pose proof (exp_neg_ne (re z) Hx) as Hab.
  pose proof (sin2_cos2 (im z)) as Hsc. unfold Rsqr in Hsc.
  set (a := exp (re z)) in *. set (b := exp (- re z)) in *.
  set (c := cos (im z)) in *. set (s := sin (im z)) in *.
  intros E.
  assert (E' : (a - b) ^ 2 * c ^ 2 + (a + b) ^ 2 * s ^ 2 = 0) by (simpl; lra).
  assert (H1 : (a - b) ^ 2 * (c ^ 2 + s ^ 2) <= 0) by nra.
  assert (H2 : 0 < (a - b) ^ 2) by (apply pow2_pos; lra).
  assert (H3 : c ^ 2 + s ^ 2 = 1) by (simpl; lra).
  rewrite H3 in H1. lra.
Qed.

Lemma Cmul_nonzero (z w : C) : Cnonzero z -> Cnonzero w -> Cnonzero (z * w).
Proof.
  unfold Cnonzero, Cmul; cbn [re im]. intros Hz Hw E. 
  assert (E' : (re z * re z + im z * im z) * (re w * re w + im w * im w) = 0)
    by lra.
  apply Rmult_integral in E'. tauto.
Qed.

Lemma Cdiv_nonzero (z w : C) : Cnonzero z -> Cnonzero w -> Cnonzero (z / w).
Proof.
  unfold Cnonzero, Cdiv; cbn [re im]. intros Hz Hw.
  set (d := re w * re w + im w * im w) in *.
  replace ((re z * re w + im z * im w) / d * ((re z * re w + im z * im w) / d)
           + (im z * re w - re z * im w) / d
             * ((im z * re w - re z * im w) / d))
    with ((re z * re z + im z * im z) / d) by (unfold d; field; exact Hw).
  intros E. apply Hz.
  apply (Rmult_eq_reg_r (/ d)); [| now apply Rinv_neq_0_compat].
  unfold Rdiv in E. lra.
Qed.

Lemma Ctanh_nonzero (z : C) : re z <> 0 -> Cnonzero (Ctanh z).
Proof.
  intros Hx. unfold Ctanh.
  apply Cdiv_nonzero;
    [now apply Cexp_sub_neg_nonzero | now apply Cexp_add_neg_nonzero].
Qed.

(** Under the hypotheses of the next theorem, no division of
    [_matsubara_params] is by zero: [beta], [4 * Om], the hyperbolic
    tangents with their own divisors, and the product that divides the
    [k]-th Matsubara term. *)
Lemma underdamped_matsubara_params_divisors
      (self : UnderDampedEnvironment.t) (k : nat) :
  UnderDampedEnvironment.T self <> 0 ->
  (UnderDampedEnvironment.gamma self / 2) ^ 2
  < UnderDampedEnvironment.w0 self ^ 2 ->
  let beta := 1 / UnderDampedEnvironment.T self in
  let Om := sqrt (UnderDampedEnvironment.w0 self ^ 2
                  - (UnderDampedEnvironment.gamma self / 2) ^ 2) in
  let Gamma := UnderDampedEnvironment.gamma self / 2 in
  let z1 := (RtoC beta * (RtoC Om + Cj 1 * RtoC Gamma) / RtoC 2)%C in
  let z2 := (RtoC beta * (RtoC Om - Cj 1 * RtoC Gamma) / RtoC 2)%C in
  let nu := 2 * PI * INR k / beta in
  beta <> 0
  /\ 4 * Om <> 0
  /\ Cnonzero (RtoC (4 * Om))
  /\ Cnonzero (RtoC 2)
  /\ Cnonzero (Cexp z1 + Cexp (- z1)) /\ Cnonzero (Ctanh z1)
  /\ Cnonzero (Cexp z2 + Cexp (- z2)) /\ Cnonzero (Ctanh z2)
  /\ Cnonzero ((Csqr (RtoC Om + Cj 1 * RtoC Gamma) + RtoC (nu ^ 2))
               * (Csqr (RtoC Om - Cj 1 * RtoC Gamma) + RtoC (nu ^ 2))).
Proof.
  intros HT Hw0 beta Om Gamma z1 z2 nu.
  assert (HOm : 0 < Om) by (apply sqrt_lt_R0; lra).
  assert (Hbeta : beta <> 0).
  { unfold beta, Rdiv. rewrite Rmult_1_l. now apply Rinv_neq_0_compat. }
  assert (Hre1 : re z1 = beta * Om / 2) by (unfold z1; csimpl; field).
  assert (Hre2 : re z2 = beta * Om / 2) by (unfold z2; csimpl; field).
  assert (Hre : beta * Om / 2 <> 0).
  { intros E. assert (E' : beta * Om = 0) by lra.
    apply Rmult_integral in E'. destruct E'; [tauto | lra]. }
  assert (Hsq : forall sgn : R, sgn * sgn = 1 ->
            Cnonzero (Cx (Om * Om - Gamma * Gamma + nu ^ 2)
                         (sgn * (2 * Om * Gamma)))).
  { intros sgn Hs. unfold Cnonzero; cbn [re im]. intros E.
    assert (HG : (Om * Gamma) ^ 2 = 0).
    { assert (0 <= (Om * Om - Gamma * Gamma + nu ^ 2) ^ 2) by apply pow2_ge_0.
      assert (0 <= (Om * Gamma) ^ 2) by apply pow2_ge_0.
      nra. }
    assert (HG' : Om * Gamma = 0).
    { destruct (Req_dec (Om * Gamma) 0) as [E0 | N0]; [exact E0 |].
      pose proof (pow2_pos _ N0). lra. }
    apply Rmult_integral in HG'. destruct HG' as [E0 | E0]; [lra |].
    assert (Hnu : 0 <= nu ^ 2) by apply pow2_ge_0.
    assert (HA : 0 < Om * Om + nu ^ 2) by nra.
    assert (E1 : (Om * Om + nu ^ 2) * (Om * Om + nu ^ 2) = 0).
    { rewrite <- E. rewrite E0. ring. }
    apply Rmult_integral in E1. lra. }
  repeat split; try assumption.
  - lra.
  - unfold Cnonzero, RtoC; cbn [re im]. nra.
  - unfold Cnonzero, RtoC; cbn [re im]. lra.
  - apply Cexp_add_neg_nonzero. now rewrite Hre1.
  - apply Ctanh_nonzero. now rewrite Hre1.
  - apply Cexp_add_neg_nonzero. now rewrite Hre2.
  - apply Ctanh_nonzero. now rewrite Hre2.
  - apply Cmul_nonzero.
    + replace (Csqr (RtoC Om + Cj 1 * RtoC Gamma) + RtoC (nu ^ 2))%C
        with (Cx (Om * Om - Gamma * Gamma + nu ^ 2) (1 * (2 * Om * Gamma)))
        by (apply C_eq; csimpl; ring).
      apply Hsq. ring.
    + replace (Csqr (RtoC Om - Cj 1 * RtoC Gamma) + RtoC (nu ^ 2))%C
        with (Cx (Om * Om - Gamma * Gamma + nu ^ 2) (-1 * (2 * Om * Gamma)))
        by (apply C_eq; csimpl; ring).
      apply Hsq. ring.
Qed.

(** For a temperature [T <> 0] and a resonance [w0] with
    [(gamma / 2)^2 < w0^2], where the detuning [Om] of the source is a
    positive real and no division of the method is by zero, the
    underdamped Matsubara expansion with [Nk] terms is
    returned and has [2 + Nk] real exponents and two imaginary exponents,
    and each of the two lists of exponents is closed under conjugation:
    the two leading exponents are conjugates of each other, and the
    Matsubara terms have real coefficients and real rates. *)
Theorem underdamped_matsubara_params_conjugate
        (self : UnderDampedEnvironment.t) (Nk : nat) :
  UnderDampedEnvironment.T self <> 0 ->
  (UnderDampedEnvironment.gamma self / 2) ^ 2
  < UnderDampedEnvironment.w0 self ^ 2 ->
  exists ck_real vk_real ck_imag vk_imag,
    UnderDampedEnvironment._matsubara_params self Nk
    = inr (ck_real, vk_real, ck_imag, vk_imag)
    /\ 0 < sqrt (UnderDampedEnvironment.w0 self ^ 2
                 - (UnderDampedEnvironment.gamma self / 2) ^ 2)
    /\ List.length ck_real = (2 + Nk)%nat
    /\ List.length vk_real = (2 + Nk)%nat
    /\ List.length ck_imag = 2%nat
    /\ List.length vk_imag = 2%nat
    /\ closed_under conj_pair (exponents ck_real vk_real)
    /\ closed_under conj_pair (exponents ck_imag vk_imag)
    /\ Forall (fun cv => im (fst cv) = 0 /\ im (snd cv) = 0)
              (skipn 2 (exponents ck_real vk_real)).
Proof.
  intros HT Hw0. do 4 eexists. split.
  { unfold UnderDampedEnvironment._matsubara_params.
    rewrite float_div_nonzero by assumption. cbn [bind]. cbv zeta.
    rewrite range_1_succ. reflexivity. }
  split; [apply sqrt_lt_R0; lra |].
  set (Om := sqrt (UnderDampedEnvironment.w0 self ^ 2
                   - (UnderDampedEnvironment.gamma self / 2) ^ 2)).
  set (Gamma := UnderDampedEnvironment.gamma self / 2).
  set (beta := 1 / UnderDampedEnvironment.T self).
  set (lam := UnderDampedEnvironment.lam self).
  set (ck := fun k : nat => _).
  set (vk := fun k : nat => _).
  assert (Hself : forall k, conj_pair (ck k, vk k) = (ck k, vk k)).
  { intros k. unfold conj_pair, ck, vk; cbn [fst snd]. f_equal.
    - push_conj. f_equal. apply Cmul_comm.
    - apply Cconj_RtoC. }
  clearbody ck vk.
  split; [cbn [app]; cbn [List.length]; now rewrite length_map, length_seq |].
  split; [cbn [app]; cbn [List.length]; now rewrite length_map, length_seq |].
  split; [reflexivity |]. split; [reflexivity |].
  unfold exponents. cbn [app combine]. rewrite combine_map_same.
  split; [| split].
  - match goal with
    | |- closed_under _ ((?c, ?v) :: (?c', ?v') :: _) =>
        replace c' with (Cconj c) by (push_conj; reflexivity);
        replace v' with (Cconj v) by (push_conj; ceq)
    end.
    apply closed_under_conj_pair_leading.
    apply Forall_forall. intros cv Hin. apply in_map_iff in Hin.
    destruct Hin as [k [<- _]]. apply Hself.
  - match goal with
    | |- closed_under _ ((?c, ?v) :: (?c', ?v') :: _) =>
        replace c' with (Cconj c) by (push_conj; reflexivity);
        replace v' with (Cconj v) by (push_conj; ceq)
    end.
    apply closed_under_conj_pair_leading. constructor.
  - cbn [skipn]. apply Forall_forall. intros cv Hin.
    apply in_map_iff in Hin. destruct Hin as [k [<- _]].
    assert (E1 : Cconj (ck k) = ck k) by exact (f_equal fst (Hself k)).
    assert (E2 : Cconj (vk k) = vk k) by exact (f_equal snd (Hself k)).
    apply (f_equal im) in E1. apply (f_equal im) in E2.
    unfold Cconj in E1, E2; cbn [im] in E1, E2. cbn [fst snd]. split; lra.
Qed.

Lemma underdamped_matsubara_params_conjugate_witness :
  exists ck_real vk_real ck_imag vk_imag,
    UnderDampedEnvironment._matsubara_params
      (UnderDampedEnvironment.new 1 1 1 1) 1
    = inr (ck_real, vk_real, ck_imag, vk_imag)
    /\ 0 < sqrt (1 ^ 2 - (1 / 2) ^ 2)
    /\ List.length ck_real = 3%nat
    /\ List.length vk_real = 3%nat
    /\ List.length ck_imag = 2%nat
    /\ List.length vk_imag = 2%nat
    /\ closed_under conj_pair (exponents ck_real vk_real)
    /\ closed_under conj_pair (exponents ck_imag vk_imag)
    /\ Forall (fun cv => im (fst cv) = 0 /\ im (snd cv) = 0)
              (skipn 2 (exponents ck_real vk_real)).
Proof.
  apply (underdamped_matsubara_params_conjugate
           (UnderDampedEnvironment.new 1 1 1 1) 1); simpl; lra.
Defined.

(** ** Construction from a characteristic function with a matching axis *)

(** With an axis of the length of the samples the validation passes and
    the interpolation backend is called: once for a spectral density and
    for a power spectrum, and for a correlation function first on the real
    parts of the samples and then, if that call returns, on the imaginary
    parts.  The construction returns an environment exactly when the
    backend returns its interpolants, which are stored (recombined as
    [re + 1j * im] for a correlation function); an error of the backend
    is the error of the construction.  A callable is stored as it is,
    whatever the axis, and the backend is not called. *)
Theorem discretized_construction_matching_axis
        (interp1d : list R -> list R -> result (R -> R)) (T : R)
        (xs ys : list R) (zs : list C) (f : R -> R) (g : R -> C)
        (xlist : option (list R)) (log : list backend_call) :
  List.length xs = List.length ys ->
  List.length xs = List.length zs ->
  from_spectral_density interp1d T (Discretized ys) (Some xs) log
  = (match interp1d xs ys with
     | inl e => inl e
     | inr sd => inr (_BosonicEnvironment_fromSD.new T sd)
     end,
     Interp1d xs ys :: log)
  /\ from_power_spectrum interp1d T (Discretized ys) (Some xs) log
     = (match interp1d xs ys with
        | inl e => inl e
        | inr ps => inr (_BosonicEnvironment_fromPS.new T ps)
        end,
        Interp1d xs ys :: log)
  /\ from_correlation_function interp1d T (Discretized zs) (Some xs) log
     = match interp1d xs (map re zs) with
       | inl e => (inl e, Interp1d xs (map re zs) :: log)
       | inr real_interp =>
           match interp1d xs (map im zs) with
           | inl e =>
               (inl e,
                Interp1d xs (map im zs) :: Interp1d xs (map re zs) :: log)
           | inr imag_interp =>
               (inr (_BosonicEnvironment_fromCF.new T
                       (fun x => (RtoC (real_interp x)
                                  + Cj 1 * RtoC (imag_interp x))%C)),
                Interp1d xs (map im zs) :: Interp1d xs (map re zs) :: log)
           end
       end
  /\ from_spectral_density interp1d T (Callable f) xlist log
     = (inr (_BosonicEnvironment_fromSD.new T f), log)
  /\ from_power_spectrum interp1d T (Callable f) xlist log
     = (inr (_BosonicEnvironment_fromPS.new T f), log)
  /\ from_correlation_function interp1d T (Callable g) xlist log
     = (inr (_BosonicEnvironment_fromCF.new T g), log).
Proof.
  intros Hy Hz.
  unfold from_spectral_density, from_power_spectrum,
    from_correlation_function, _BosonicEnvironment_fromSD.__init__,
    _BosonicEnvironment_fromPS.__init__, _BosonicEnvironment_fromCF.__init__,
    _complex_interpolation, mbind.
  rewrite !real_interpolation_match by (now rewrite ?length_map).
  repeat split.
  - now destruct (interp1d xs ys).
  - now destruct (interp1d xs ys).
  - destruct (interp1d xs (map re zs)) as [e | fr]; [reflexivity |].
    now destruct (interp1d xs (map im zs)).
Qed.

Lemma discretized_construction_matching_axis_witness :
  from_spectral_density
    (fun xs ys => if (List.length xs <? 4)%nat
                  then inl (ValueError "too few samples")
                  else inr (fun _ => 0))
    1 (Discretized [1; 2]) (Some [0; 1]) []
  = (inl (ValueError "too few samples"), [Interp1d [0; 1] [1; 2]]).
Proof.
  apply (discretized_construction_matching_axis
           (fun xs ys => if (List.length xs <? 4)%nat
                         then inl (ValueError "too few samples")
                         else inr (fun _ => 0))
           1 [0; 1] [1; 2] [Cj 1; Cj 2] (fun _ => 0) (fun _ => Cj 0)
           None []);
    reflexivity.
Defined.

(** ** The occupation number and the approximated spectral density *)

Lemma bose_pos (T w : R) : 0 < T -> 0 < w -> 0 < bose T w.
Proof.
  intros HT Hw. unfold bose. rewrite Reqb_false by lra.
  pose proof (bose_denominator_pos T w HT Hw).
  unfold Rdiv. rewrite Rmult_1_l. now apply Rinv_0_lt_compat.
Qed.

Lemma bose_neg (T w : R) :
  0 < T -> w <> 0 -> bose T (- w) = - (bose T w + 1).
Proof.
  intros HT Hw. unfold bose.
  rewrite !Reqb_false by lra. rewrite exp_div_neg.
  pose proof (exp_pos (w / T)) as Hpos.
  pose proof (exp_div_ne_1 w T HT Hw) as Hne.
  set (E := exp (w / T)) in *.
  field. repeat split; intros H; apply Hne; lra.
Qed.

(** For a bath at a temperature [T > 0] and positive frequencies, the
    occupation numbers of [_bose_einstein] are positive, and the
    occupation numbers at the negated frequencies are [- (n + 1)]. *)
Theorem bose_einstein_positive_and_reflected {Qobj : Type} (Q : Qobj)
        (ck vk ci vi : list C) (T : R) (w : list R) :
  0 < T -> Forall (fun x => 0 < x) w ->
  exists n,
    _bose_einstein (Bath Q ck vk ci vi (Some T)) w = inr n
    /\ List.length n = List.length w
    /\ Forall (fun x => 0 < x) n
    /\ _bose_einstein (Bath Q ck vk ci vi (Some T)) (map Ropp w)
       = inr (map (fun x => - (x + 1)) n).
Proof.
  intros HT Hw. rewrite !bose_einstein_defined by lra.
  eexists. split; [reflexivity |]. split; [apply length_map |]. split.
  - apply Forall_forall. intros x Hx. apply in_map_iff in Hx.
    destruct Hx as [y [<- Hy]]. rewrite Forall_forall in Hw.
    apply bose_pos; auto.
  - f_equal. rewrite !map_map. apply map_ext_in. intros x Hx.
    rewrite Forall_forall in Hw. specialize (Hw x Hx).
    apply bose_neg; lra.
Qed.

Lemma bose_einstein_positive_and_reflected_witness :
  exists n,
    _bose_einstein (Bath tt [] [] [] [] (Some 1)) [1; 2] = inr n
    /\ List.length n = List.length [1; 2]
    /\ Forall (fun x => 0 < x) n
    /\ _bose_einstein (Bath tt [] [] [] [] (Some 1)) (map Ropp [1; 2])
       = inr (map (fun x => - (x + 1)) n).
Proof.
  apply (bose_einstein_positive_and_reflected tt [] [] [] [] 1 [1; 2]).
  - lra.
  - repeat constructor; lra.
Defined.

Lemma add_inplace_R_map {A : Type} (f g : A -> R) (l : list A) :
  add_inplace_R (map f l) (map g l) = map (fun x => f x + g x) l.
Proof. unfold add_inplace_R. now rewrite combine_map_same, map_map. Qed.

Lemma add_inplace_map {A : Type} (f g : A -> C) (l : list A) :
  add_inplace (map f l) (map g l) = map (fun x => (f x + g x)%C) l.
Proof. unfold add_inplace. now rewrite combine_map_same, map_map. Qed.

(** The approximated power spectrum is, at every frequency, the sum of
    the terms of the exponents. *)
Lemma power_spectrum_approx_sum (exps : list BathExponent) (w : list R) :
  power_spectrum_approx exps w
  = map (fun x => Rsum (map (fun e => lorentzian_term e x) exps)) w.
Proof.
  unfold power_spectrum_approx, zeros_like.
  assert (G : forall (acc : R -> R),
             fold_left
               (fun S exp =>
                  let coeff := power_spectrum_coeff exp in
                  add_inplace_R S
                    (map (fun w0 =>
                            2 * re (coeff / (exp_vk exp - Cj 1 * RtoC w0))%C)
                         w))
               exps (map acc w)
             = map (fun x => acc x
                             + Rsum (map (fun e => lorentzian_term e x) exps))
                   w).
  { induction exps as [| e exps IH]; intros acc; cbn [fold_left map].
    - apply map_ext. intros x. unfold Rsum; simpl. lra.
    - rewrite add_inplace_R_map, IH. apply map_ext. intros x.
      rewrite Rsum_cons. unfold lorentzian_term. lra. }
  refine (eq_trans (G (fun _ => 0)) _). apply map_ext. intros x. lra.
Qed.

(** [spectral_density_approx] raises the error of [_bose_einstein] for a
    bath without temperature, whatever the exponents and frequencies; at
    [T = 0] it is half the approximated power spectrum. *)
Theorem spectral_density_approx_edge {Qobj : Type} (Q : Qobj)
        (ck vk ci vi : list C) (exps : list BathExponent) (w : list R) :
  spectral_density_approx (Bath Q ck vk ci vi None) exps w
  = inl (ValueError "Bath temperature must be specified for this operation")
  /\ spectral_density_approx (Bath Q ck vk ci vi (Some 0)) exps w
     = inr (map (fun s => s / 2) (power_spectrum_approx exps w)).
Proof.
  split; [reflexivity |].
  unfold spectral_density_approx, _bose_einstein. cbn [T].
  rewrite Reqb_true by reflexivity. cbn [bind].
  rewrite power_spectrum_approx_sum. unfold zeros_like.
  rewrite combine_map_same, !map_map. f_equal.
  apply map_ext. intros x. cbn [fst snd]. field.
Qed.

(** ** The approximated correlation function and power spectrum *)

(** The approximated correlation function is, at every time, the sum of
    the terms of the exponents. *)
Lemma correlation_function_approx_sum (exps : list BathExponent)
      (ts : list R) :
  correlation_function_approx exps ts
  = map (fun t => Csum (map (fun e => exponent_term e t) exps)) ts.
Proof.
  unfold correlation_function_approx, zeros_like.
  assert (G : forall (acc : R -> C),
             fold_left
               (fun corr exp =>
                  let corr :=
                    if exponent_type_eqb (exp_type exp) type_R
                       || exponent_type_eqb (exp_type exp) type_RI
                    then add_inplace corr
                           (map (fun t =>
                                   (exp_ck exp
                                    * Cexp (- exp_vk exp * RtoC t))%C) ts)
                    else corr in
                  let corr :=
                    if exponent_type_eqb (exp_type exp) type_I
                    then add_inplace corr
                           (map (fun t =>
                                   (Cj 1 * exp_ck exp
                                    * Cexp (- exp_vk exp * RtoC t))%C) ts)
                    else corr in
                  let corr :=
                    if exponent_type_eqb (exp_type exp) type_RI
                    then add_inplace corr
                           (map (fun t =>
                                   (Cj 1 * exp_ck2 exp
                                    * Cexp (- exp_vk exp * RtoC t))%C) ts)
                    else corr in
                  corr)
               exps (map acc ts)
             = map (fun t => (acc t
                              + Csum (map (fun e => exponent_term e t) exps))%C)
                   ts).
  { induction exps as [| e exps IH]; intros acc; cbn [fold_left map].
    - apply map_ext. intros t. rewrite Csum_nil. ceq.
    - cbv zeta.
      destruct (exp_type e) eqn:Et; cbn [exponent_type_eqb orb];
        rewrite ?add_inplace_map, IH; apply map_ext; intros t;
        rewrite Csum_cons; unfold exponent_term; rewrite Et;
        now rewrite ?Cadd_assoc. }
  refine (eq_trans (G (fun _ => RtoC 0)) _). apply map_ext. intros t.
  apply Cadd_0_l.
Qed.

(** An exponent of the type ['RI'] stands for an exponent of the type
    ['R'] and an exponent of the type ['I'] with the same rate: replacing
    the two by the one, anywhere in the list of exponents, changes neither
    the approximated correlation function nor the approximated power
    spectrum. *)
Theorem combined_exponent_equivalent (l1 l2 : list BathExponent)
        (ck ck2 vk unused unused' : C) (t w : list R) :
  let separate :=
    l1 ++ [Exponent type_R ck unused vk; Exponent type_I ck2 unused' vk]
       ++ l2 in
  let combined := l1 ++ [Exponent type_RI ck ck2 vk] ++ l2 in
  correlation_function_approx separate t
  = correlation_function_approx combined t
  /\ power_spectrum_approx separate w = power_spectrum_approx combined w.
Proof.
  intros separate combined. unfold separate, combined.
  rewrite !correlation_function_approx_sum, !power_spectrum_approx_sum.
  split; apply map_ext; intros x; rewrite !map_app.
  - rewrite !Csum_app. cbn [map]. rewrite !Csum_cons.
    unfold exponent_term; cbn [exp_type exp_ck exp_ck2 exp_vk].
    now rewrite !Cadd_assoc.
  - rewrite !Rsum_app. cbn [map]. rewrite !Rsum_cons.
    unfold lorentzian_term, power_spectrum_coeff;
      cbn [exp_type exp_ck exp_ck2 exp_vk].
    unfold Cdiv, Cadd; cbn [re im]. unfold Rdiv. ring.
Qed.

(** For a temperature [T <> 0] and a cutoff [gamma] whose square is the
    square of no Matsubara frequency [2 pi k T] with [k <= Nk], the
    Drude-Lorentz [_matsubara_params(Nk)] returns, and its imaginary
    exponent, taken as an exponent of the type ['I'], contributes the
    Drude-Lorentz spectral density to the approximated power spectrum,
    whatever the number of Matsubara terms. *)
Theorem drude_lorentz_imaginary_exponent_spectrum
        (self : DrudeLorentzEnvironment.t) (Nk : nat) (w : list R) :
  let gamma := DrudeLorentzEnvironment.gamma self in
  let T := DrudeLorentzEnvironment.T self in
  T <> 0 ->
  Forall (fun k : nat => (2 * PI * INR k * T) ^ 2 - gamma ^ 2 <> 0)
         (seq 1 Nk) ->
  exists ck_real vk_real ck_imag vk_imag,
    DrudeLorentzEnvironment._matsubara_params self Nk
    = inr (ck_real, vk_real, ck_imag, vk_imag)
    /\ power_spectrum_approx
         (map (fun cv =>
                 Exponent type_I (RtoC (fst cv)) (RtoC 0) (RtoC (snd cv)))
              (combine ck_imag vk_imag))
         w
       = map (DrudeLorentzEnvironment.spectral_density self) w.
Proof.
  intros gamma T HT Hres.
  do 4 eexists. split.
  - apply drude_lorentz_matsubara_params_defined; assumption.
  - rewrite power_spectrum_approx_sum. apply map_ext. intros x.
    cbn [combine map fst snd]. rewrite Rsum_cons. cbn [Rsum fold_right].
    unfold lorentzian_term, power_spectrum_coeff,
      DrudeLorentzEnvironment.spectral_density;
      cbn [exp_type exp_ck exp_vk].
    csimpl. unfold Rdiv.
    replace ((DrudeLorentzEnvironment.gamma self - (0 * x - 1 * 0))
             * (DrudeLorentzEnvironment.gamma self - (0 * x - 1 * 0))
             + (0 - (0 * 0 + 1 * x)) * (0 - (0 * 0 + 1 * x)))
      with (DrudeLorentzEnvironment.gamma self
            * (DrudeLorentzEnvironment.gamma self * 1) + x * (x * 1)) by ring.
    ring.
Qed.

Lemma drude_lorentz_imaginary_exponent_spectrum_witness :
  exists ck_real vk_real ck_imag vk_imag,
    DrudeLorentzEnvironment._matsubara_params
      (DrudeLorentzEnvironment.new 1 1 1) 1
    = inr (ck_real, vk_real, ck_imag, vk_imag)
    /\ power_spectrum_approx
         (map (fun cv =>
                 Exponent type_I (RtoC (fst cv)) (RtoC 0) (RtoC (snd cv)))
              (combine ck_imag vk_imag))
         [0; 1]
       = map (DrudeLorentzEnvironment.spectral_density
                (DrudeLorentzEnvironment.new 1 1 1))
             [0; 1].
Proof.
  apply (drude_lorentz_imaginary_exponent_spectrum
           (DrudeLorentzEnvironment.new 1 1 1) 1 [0; 1]).
  - simpl; lra.
  - pose proof PI2_1 as Hpi.
    repeat constructor; simpl; nra.
Defined.

(** ** The fit function of the correlation function *)

Lemma broadcast2_same_length {A B D : Type} (f : A -> B -> D)
      (xs : list A) (mx : nat) (ys : list B) (my : nat) :
  List.length xs = List.length ys ->
  broadcast2 f xs mx ys my
  = inr (map (fun p => f (fst p) (snd p)) (combine xs ys)).
Proof.
  intros H. unfold broadcast2. apply Nat.eqb_eq in H. now rewrite H.
Qed.

Lemma combine_assoc {A B D : Type} (l : list A) (m : list B) (n : list D) :
  combine (combine l m) n
  = map (fun p => ((fst p, fst (snd p)), snd (snd p)))
        (combine l (combine m n)).
Proof.
  revert m n. induction l as [| x l IH]; intros [| y m] [| z n]; simpl;
    try reflexivity.
  now rewrite IH.
Qed.

Lemma all_zero_zeros (a d : list R) :
  forallb (fun x => Reqb x 0) d = true ->
  List.length d = List.length a ->
  zeros_like 0 a = d.
Proof.
  unfold zeros_like. revert a.
  induction d as [| y d IH]; intros [| x a] Hz Hlen; simpl in *;
    try discriminate; [reflexivity |].
  apply andb_prop in Hz. destruct Hz as [Hy Hz].
  unfold Reqb in Hy. destruct (Req_dec_T y 0); [| discriminate].
  subst. f_equal. apply IH; [assumption | lia].
Qed.

(** With rows of one length the fit function is the sum of its terms. *)
Lemma corr_approx_terms (ts a b c d : list R) :
  List.length a = List.length b -> List.length b = List.length c ->
  List.length d = List.length a ->
  CorrelationFitter._corr_approx ts a b c d
  = inr (map (fit_function a b c d) ts).
Proof.
  intros Hab Hbc Hd. unfold CorrelationFitter._corr_approx.
  assert (Ed : (if forallb (fun x => Reqb x 0) d then zeros_like 0 a else d)
               = d).
  { destruct (forallb (fun x => Reqb x 0) d) eqn:Hz; [| reflexivity].
    now apply all_zero_zeros. }
  rewrite Ed.
  rewrite broadcast2_same_length by lia. cbn [bind].
  rewrite broadcast2_same_length
    by (rewrite length_map, length_combine; lia).
  cbn [bind].
  rewrite broadcast2_same_length
    by (rewrite !length_map, !length_combine, !length_map, !length_combine;
        lia).
  cbn [bind]. f_equal. apply map_ext. intros t. unfold fit_function.
  f_equal.
  rewrite !combine_map_l, !map_map.
  rewrite (combine_assoc (combine a d) b c), map_map.
  apply map_ext. intros [[x y] [bk ck]]. reflexivity.
Qed.

(** Without imaginary amplitudes the fit function is real at [t = 0],
    where it is the sum of the amplitudes [a]. *)
Theorem corr_approx_at_0 (a b c d : list R) :
  List.length a = List.length b -> List.length b = List.length c ->
  forallb (fun x => Reqb x 0) d = true ->
  List.length d = List.length a ->
  CorrelationFitter._corr_approx [0] a b c d = inr [RtoC (Rsum a)].
Proof.
  intros Hab Hbc Hz Hd.
  rewrite corr_approx_terms by assumption. cbn [map]. do 2 f_equal.
  rewrite <- (all_zero_zeros a d Hz Hd). unfold fit_function, zeros_like.
  clear Hz Hd d. revert b c Hab Hbc.
  induction a as [| x a IH]; intros [| bk b] [| ck c] Hab Hbc;
    simpl in *; try discriminate; [reflexivity |].
  rewrite Csum_cons, (IH b c) by lia.
  unfold fit_term; cbn [fst snd]. apply C_eq; unfold Cexp; csimpl.
  - replace (bk * 0) with 0 by ring.
    replace ((0 * ck - 1 * 0) * 0 - (0 * 0 + 1 * ck) * 0) with 0 by ring.
    replace ((0 * ck - 1 * 0) * 0 + (0 * 0 + 1 * ck) * 0) with 0 by ring.
    rewrite exp_0, cos_0, sin_0. ring.
  - replace (bk * 0) with 0 by ring.
    replace ((0 * ck - 1 * 0) * 0 - (0 * 0 + 1 * ck) * 0) with 0 by ring.
    replace ((0 * ck - 1 * 0) * 0 + (0 * 0 + 1 * ck) * 0) with 0 by ring.
    rewrite exp_0, cos_0, sin_0. ring.
Qed.

Lemma corr_approx_at_0_witness :
  CorrelationFitter._corr_approx [0] [1; 2] [-1; -2] [3; 4] [0; 0]
  = inr [RtoC (Rsum [1; 2])].
Proof.
  apply (corr_approx_at_0 [1; 2] [-1; -2] [3; 4] [0; 0]);
    try reflexivity.
  simpl. unfold Reqb.
  destruct (Req_dec_T 0 0) as [_ | H]; [reflexivity | now elim H].
Defined.

(** ** The bath of the correlation-function fit reconstructs the fit *)

Lemma Cexp_decay (b c t : R) :
  Cexp (- Cx (- b) (- c) * RtoC t)
  = Cx (exp (b * t) * cos (c * t)) (exp (b * t) * sin (c * t)).
Proof.
  unfold Cexp; csimpl.
  replace (- - b * t - - - c * 0) with (b * t) by ring.
  replace (- - b * 0 + - - c * t) with (c * t) by ring.
  reflexivity.
Qed.

Lemma Cexp_decay_conj (b c t : R) :
  Cexp (- Cconj (Cx (- b) (- c)) * RtoC t)
  = Cx (exp (b * t) * cos (c * t)) (- (exp (b * t) * sin (c * t))).
Proof.
  unfold Cexp; csimpl.
  replace (- - b * t - - - - c * 0) with (b * t) by ring.
  replace (- - b * 0 + - - - c * t) with (- (c * t)) by ring.
  rewrite cos_neg, sin_neg. f_equal. ring.
Qed.

Lemma Cexp_phase (c t : R) :
  Cexp (Cj 1 * RtoC c * RtoC t) = Cx (cos (c * t)) (sin (c * t)).
Proof.
  unfold Cexp; csimpl.
  replace ((0 * c - 1 * 0) * t - (0 * 0 + 1 * c) * 0) with 0 by ring.
  replace ((0 * c - 1 * 0) * 0 + (0 * 0 + 1 * c) * t) with (c * t) by ring.
  rewrite exp_0. f_equal; ring.
Qed.

Lemma fit_term_parts (x y bk ck t : R) :
  fit_term ((x, y), (bk, ck)) t
  = Cx (exp (bk * t) * (x * cos (ck * t) - y * sin (ck * t)))
       (exp (bk * t) * (x * sin (ck * t) + y * cos (ck * t))).
Proof.
  unfold fit_term; cbn [fst snd]. rewrite Cexp_phase.
  apply C_eq; csimpl; ring.
Qed.

(** An exponent of the real part and its conjugate partner add up to the
    real part of the term of the fit function. *)
Lemma real_pair_term (x y bk ck t : R) :
  (Cx (0.5 * x) (0.5 * y) * Cexp (- Cx (- bk) (- ck) * RtoC t)
   + Cconj (Cx (0.5 * x) (0.5 * y))
     * Cexp (- Cconj (Cx (- bk) (- ck)) * RtoC t))%C
  = RtoC (re (fit_term ((x, y), (bk, ck)) t)).
Proof.
  rewrite Cexp_decay, Cexp_decay_conj, fit_term_parts.
  apply C_eq; csimpl; replace 0.5 with (/ 2) by lra; field.
Qed.

(** An exponent of the imaginary part and its conjugate partner add up
    to the imaginary part of the term of the fit function. *)
Lemma imag_pair_term (x y bk ck t : R) :
  (Cj 1 * Cx (0.5 * y) (- (0.5 * x)) * Cexp (- Cx (- bk) (- ck) * RtoC t)
   + Cj 1 * Cconj (Cx (0.5 * y) (- (0.5 * x)))
     * Cexp (- Cconj (Cx (- bk) (- ck)) * RtoC t))%C
  = Cx 0 (im (fit_term ((x, y), (bk, ck)) t)).
Proof.
  rewrite Cexp_decay, Cexp_decay_conj, fit_term_parts.
  apply C_eq; csimpl; replace 0.5 with (/ 2) by lra; field.
Qed.

Lemma Csum_map_add {A : Type} (f g : A -> C) (l : list A) :
  (Csum (map f l) + Csum (map g l))%C
  = Csum (map (fun x => (f x + g x)%C) l).
Proof.
  apply C_eq; cbn [Cadd re im];
    rewrite ?re_Csum, ?im_Csum, !map_map;
    now rewrite <- Rsum_map_plus.
Qed.

Lemma Rsum_zero {A : Type} (l : list A) : Rsum (map (fun _ => 0) l) = 0.
Proof. induction l as [| x l IH]; simpl; [reflexivity | rewrite IH; lra]. Qed.

Lemma Csum_re_parts {A : Type} (f : A -> C) (l : list A) :
  Csum (map (fun x => RtoC (re (f x))) l) = RtoC (re (Csum (map f l))).
Proof.
  apply C_eq; cbn [RtoC re im]; rewrite ?re_Csum, ?im_Csum, ?map_map;
    cbn [RtoC re im]; [reflexivity | apply Rsum_zero].
Qed.

Lemma Csum_im_parts {A : Type} (f : A -> C) (l : list A) :
  Csum (map (fun x => Cx 0 (im (f x))) l) = Cx 0 (im (Csum (map f l))).
Proof.
  apply C_eq; cbn [re im]; rewrite ?re_Csum, ?im_Csum, ?map_map;
    cbn [re im]; [apply Rsum_zero | reflexivity].
Qed.

(** The sum over coefficients followed by their conjugates, with rates
    followed by their conjugates. *)
Lemma Csum_conjugate_halves (mk : C * C -> BathExponent)
      (X V : list C) (t : R) :
  List.length X = List.length V ->
  Csum (map (fun e => exponent_term e t)
            (map mk (exponents (X ++ map Cconj X) (V ++ map Cconj V))))
  = Csum (map (fun cv => (exponent_term (mk cv) t
                          + exponent_term (mk (conj_pair cv)) t)%C)
              (combine X V)).
Proof.
  intros Hlen. unfold exponents.
  rewrite combine_app by assumption. rewrite combine_map.
  change (fun p : C * C => (Cconj (fst p), Cconj (snd p))) with conj_pair.
  rewrite !map_app, Csum_app, !map_map. apply Csum_map_add.
Qed.

Section Reconstruction.

Variable Qobj : Type.
Variables (self_Q : Qobj) (self_T : option R).

(** The approximated correlation function of the bath of a fit is the
    real part of the fit function with the parameters of the real part,
    plus [i] times the imaginary part of the fit function with the
    parameters of the imaginary part. *)
Lemma generate_bath_reconstruction (n : Z) (a b c d a2 b2 c2 d2 : list R)
      (bath : ExponentialBosonicBath Qobj) (t : R) :
  List.length a = List.length b -> List.length b = List.length c ->
  List.length (fit_d n a d) = List.length a ->
  List.length a2 = List.length b2 -> List.length b2 = List.length c2 ->
  List.length (fit_d n a2 d2) = List.length a2 ->
  CorrelationFitter._generate_bath Qobj self_Q self_T
    (fit_params n a b c d) (fit_params n a2 b2 c2 d2) n = inr bath ->
  Csum (map (fun e => exponent_term e t) (tagged_exponents bath))
  = Cx (re (fit_function a b c (fit_d n a d) t))
       (im (fit_function a2 b2 c2 (fit_d n a2 d2) t)).
Proof.
  intros Hab Hbc Hd Hab2 Hbc2 Hd2 Hbath.
  rewrite generate_bath_lists in Hbath. cbv zeta in Hbath.
  injection Hbath as <-. unfold tagged_exponents.
  cbn [ck_real vk_real ck_imag vk_imag].
  rewrite map_app, Csum_app.
  rewrite !Csum_conjugate_halves
    by (rewrite !length_map, !length_combine; lia).
  rewrite !combine_map, !map_map.
  transitivity
    (Csum (map (fun q => RtoC (re (fit_term q t)))
               (combine (combine a (fit_d n a d)) (combine b c)))
     + Csum (map (fun q => Cx 0 (im (fit_term q t)))
                 (combine (combine a2 (fit_d n a2 d2)) (combine b2 c2))))%C.
  { f_equal; f_equal; apply map_ext; intros [[x y] [bk ck]];
      unfold exponent_term, conj_pair;
      cbn [exp_type exp_ck exp_vk fst snd];
      [apply real_pair_term | apply imag_pair_term]. }
  rewrite Csum_re_parts, Csum_im_parts. unfold fit_function.
  apply C_eq; csimpl; lra.
Qed.

End Reconstruction.

Lemma correlation_fit_lists_exist (Qobj : Type) (self_Q : Qobj)
      (self_T : option R) (n : Z) (a b c d a2 b2 c2 d2 : list R) :
  exists bath,
    CorrelationFitter._generate_bath Qobj self_Q self_T
      (fit_params n a b c d) (fit_params n a2 b2 c2 d2) n = inr bath.
Proof. rewrite generate_bath_lists. cbv zeta. eexists. reflexivity. Qed.

(** For fit parameters whose rows have one length, the bath of the
    correlation-function fit reconstructs the fit: with the exponents of
    its real lists tagged ['R'] and those of its imaginary lists tagged
    ['I'], the approximated correlation function is, at every time, the
    real part of the fit function of the real-part parameters plus [i]
    times the imaginary part of the fit function of the imaginary-part
    parameters. *)
Theorem correlation_fit_reconstructs (Qobj : Type) (self_Q : Qobj)
        (self_T : option R) (n : Z) (a b c d a2 b2 c2 d2 ts : list R) :
  List.length a = List.length b -> List.length b = List.length c ->
  List.length (fit_d n a d) = List.length a ->
  List.length a2 = List.length b2 -> List.length b2 = List.length c2 ->
  List.length (fit_d n a2 d2) = List.length a2 ->
  exists bath fit_real fit_imag,
    CorrelationFitter._generate_bath Qobj self_Q self_T
      (fit_params n a b c d) (fit_params n a2 b2 c2 d2) n = inr bath
    /\ CorrelationFitter._corr_approx ts a b c (fit_d n a d) = inr fit_real
    /\ CorrelationFitter._corr_approx ts a2 b2 c2 (fit_d n a2 d2)
       = inr fit_imag
    /\ correlation_function_approx (tagged_exponents bath) ts
       = map (fun p => Cx (re (fst p)) (im (snd p)))
             (combine fit_real fit_imag).
Proof.
  intros Hab Hbc Hd Hab2 Hbc2 Hd2.
  destruct (correlation_fit_lists_exist Qobj self_Q self_T n
              a b c d a2 b2 c2 d2) as [bath Hbath].
  exists bath. do 2 eexists.
  split; [exact Hbath |].
  split; [apply corr_approx_terms; assumption |].
  split; [apply corr_approx_terms; assumption |].
  rewrite correlation_function_approx_sum, combine_map_same, map_map.
  apply map_ext. intros t. cbn [fst snd].
  now apply (generate_bath_reconstruction Qobj self_Q self_T n
               a b c d a2 b2 c2 d2).
Qed.

Lemma correlation_fit_reconstructs_witness :
  exists bath fit_real fit_imag,
    CorrelationFitter._generate_bath unit tt None
      [[1]; [-1]; [1]] [[2]; [-3]; [4]] 3 = inr bath
    /\ CorrelationFitter._corr_approx [0; 1] [1] [-1] [1] [0] = inr fit_real
    /\ CorrelationFitter._corr_approx [0; 1] [2] [-3] [4] [0] = inr fit_imag
    /\ correlation_function_approx (tagged_exponents bath) [0; 1]
       = map (fun p => Cx (re (fst p)) (im (snd p)))
             (combine fit_real fit_imag).
Proof.
  apply (correlation_fit_reconstructs unit tt None 3
           [1] [-1] [1] [] [2] [-3] [4] [] [0; 1]); reflexivity.
Defined.

Lemma broadcast2_mismatch {A B D : Type} (f : A -> B -> D)
      (xs : list A) (mx : nat) (ys : list B) (my : nat) :
  List.length xs <> List.length ys ->
  List.length xs <> 1%nat -> List.length ys <> 1%nat ->
  broadcast2 f xs mx ys my
  = inl (ValueError
           ("operands could not be broadcast together with shapes "
            ++ show_shape (List.length xs) mx ++ " "
            ++ show_shape (List.length ys) my ++ " ")%string).
Proof.
  intros Hne Hx Hy. unfold broadcast2.
  apply Nat.eqb_neq in Hne. rewrite Hne.
  destruct xs as [| x [| x' xs]]; destruct ys as [| y [| y' ys]];
    simpl in *; try reflexivity; lia.
Qed.

(** The fit function raises numpy's broadcasting error when the decay
    rates [b] are not as many as the amplitudes [a] and neither array has
    the length one; an array of length one is broadcast instead. *)
Theorem corr_approx_broadcast_error (t a b c d : list R) :
  forallb (fun x => Reqb x 0) d = true ->
  List.length a <> List.length b ->
  List.length a <> 1%nat -> List.length b <> 1%nat ->
  CorrelationFitter._corr_approx t a b c d
  = inl (ValueError
           ("operands could not be broadcast together with shapes "
            ++ show_shape (List.length a) 1 ++ " "
            ++ show_shape (List.length b) (List.length t) ++ " ")%string).
Proof.
  intros Hz Hne Ha Hb. unfold CorrelationFitter._corr_approx.
  rewrite Hz.
  rewrite broadcast2_same_length by (unfold zeros_like; now rewrite length_map).
  cbn [bind].
  rewrite broadcast2_mismatch;
    rewrite ?length_map, ?length_combine; unfold zeros_like;
    rewrite ?length_map, ?Nat.min_id; try assumption.
  reflexivity.
Qed.

Lemma corr_approx_broadcast_error_witness :
  CorrelationFitter._corr_approx [0] [1; 2] [1; 2; 3] [1; 2] []
  = inl (ValueError
           "operands could not be broadcast together with shapes (2,1) (3,1) ").
Proof.
  apply (corr_approx_broadcast_error [0] [1; 2] [1; 2; 3] [1; 2] []);
    simpl; try reflexivity; lia.
Defined.

(** ** The fit function of the spectral density *)

Lemma meier_tannor_sum (w : R) (a b c : list R) :
  SpectralFitter._meier_tannor_SD w a b c
  = Rsum (map (fun t : R * (R * R) =>
                 2 * fst t * fst (snd t) * w
                 / ((w + snd (snd t)) ^ 2 + fst (snd t) ^ 2)
                 / ((w - snd (snd t)) ^ 2 + fst (snd t) ^ 2))
              (combine a (combine b c))).
Proof.
  unfold SpectralFitter._meier_tannor_SD.
  rewrite fold_left_Rplus, Rplus_0_l. f_equal.
  apply map_ext. intros [ai [bi ci]]. reflexivity.
Qed.

(** The Meier-Tannor fit function is odd in the frequency, and so zero at
    the frequency zero, for all parameters. *)
Theorem meier_tannor_odd (w : R) (a b c : list R) :
  SpectralFitter._meier_tannor_SD (- w) a b c
  = - SpectralFitter._meier_tannor_SD w a b c
  /\ SpectralFitter._meier_tannor_SD 0 a b c = 0.
Proof.
  assert (Hodd : forall x,
             SpectralFitter._meier_tannor_SD (- x) a b c
             = - SpectralFitter._meier_tannor_SD x a b c).
  { intros x. rewrite !meier_tannor_sum, <- Rsum_map_opp.
    apply Rsum_map_ext. intros [ai [bi ci]]. cbn [fst snd].
    replace ((- x + ci) ^ 2) with ((x - ci) ^ 2) by ring.
    replace ((- x - ci) ^ 2) with ((x + ci) ^ 2) by ring.
    unfold Rdiv. ring. }
  split; [apply Hodd |].
  pose proof (Hodd 0) as H. rewrite Ropp_0 in H. lra.
Qed.

(** ** Malformed parameters of the spectral-density fit *)

Lemma mapM_inr {A B : Type} (g : A -> B) (l : list A) :
  mapM (fun x => inr (g x)) l = inr (map g l).
Proof.
  induction l as [| x l IH]; simpl; [reflexivity |]. now rewrite IH.
Qed.

Lemma mapM_app_fail {A B : Type} (f : A -> result B) (l1 l2 : list A)
      (x : A) (ys : list B) (e : exception) :
  mapM f l1 = inr ys -> f x = inl e -> mapM f (l1 ++ x :: l2) = inl e.
Proof.
  revert ys. induction l1 as [| y l1 IH]; intros ys H1 Hx; simpl.
  - now rewrite Hx.
  - simpl in H1. destruct (f y) as [e' | v]; simpl in *; [discriminate |].
    destruct (mapM f l1) as [e' | vs] eqn:E; simpl in *; [discriminate |].
    now rewrite (IH vs eq_refl Hx).
Qed.

Lemma getitem_in_range {A : Type} (xs : list A) (i : nat) (d : A) :
  (i < List.length xs)%nat -> getitem xs i = inr (nth i xs d).
Proof.
  intros Hi. unfold getitem.
  destruct (nth_error xs i) eqn:E.
  - now rewrite (nth_error_nth xs i d E).
  - apply nth_error_None in E. lia.
Qed.

Lemma getitem_out_of_range {A : Type} (xs : list A) :
  getitem xs (List.length xs)
  = inl (IndexError ("index " ++ show_nat (List.length xs)
                     ++ " is out of bounds for axis 0 with size "
                     ++ show_nat (List.length xs))%string).
Proof.
  unfold getitem.
  destruct (nth_error xs (List.length xs)) eqn:E; [| reflexivity].
  assert (H : nth_error xs (List.length xs) <> None) by congruence.
  apply nth_error_Some in H. lia.
Qed.

(** [_generate_bath] of the spectral-density fit raises an [IndexError]
    when the row of the dampings is shorter than the row of the resonance
    frequencies, at the first index that the dampings lack; and it raises
    the [ValueError] of the unpacking when the parameters are not three
    rows. *)
Theorem spectral_fit_generate_bath_errors (Qobj : Type)
        (matsubara_params :
           C -> R -> C -> option R -> nat ->
           list C * list C * list C * list C)
        (self_Q : Qobj) (self_T : option R) (Nk : nat) (a b c : list R)
        (params : list (list R)) :
  (List.length b < List.length c)%nat ->
  List.length params <> 3%nat ->
  SpectralFitter._generate_bath Qobj matsubara_params self_Q self_T
    [a; b; c] Nk
  = inl (IndexError ("index " ++ show_nat (List.length b)
                     ++ " is out of bounds for axis 0 with size "
                     ++ show_nat (List.length b))%string)
  /\ SpectralFitter._generate_bath Qobj matsubara_params self_Q self_T
       params Nk
     = inl (unpack_error 3 params).
Proof.
  intros Hlen Hp. split.
  - unfold SpectralFitter._generate_bath. cbn [unpack3 bind].
    unfold range. rewrite Nat.sub_0_r.
    replace (List.length c)
      with (List.length b + S (List.length c - S (List.length b)))%nat by lia.
    rewrite seq_app. cbn [seq]. rewrite Nat.add_0_l.
    erewrite mapM_app_fail; [reflexivity | |].
    + rewrite (mapM_ext_in _
                 (fun i => inr (Csqrt (Csqr (RtoC (nth i c 0) + Cj 0)
                                       + Csqr (RtoC (nth i b 0)
                                               + Cj 0 / RtoC 2))%C))).
      * apply mapM_inr.
      * intros i Hi. apply in_seq in Hi.
        rewrite (getitem_in_range c i 0), (getitem_in_range b i 0) by lia.
        reflexivity.
    + rewrite (getitem_in_range c (List.length b) 0) by lia.
      cbn [bind]. rewrite getitem_out_of_range. reflexivity.
  - unfold SpectralFitter._generate_bath.
    destruct params as [| p1 [| p2 [| p3 [| p4 ps]]]];
      simpl in Hp; try reflexivity.
    lia.
Qed.

Lemma spectral_fit_generate_bath_errors_witness :
  SpectralFitter._generate_bath unit echo_params tt None
    [[1; 2]; [1]; [3; 4]] 0
  = inl (IndexError "index 1 is out of bounds for axis 0 with size 1")
  /\ SpectralFitter._generate_bath unit echo_params tt None
       [[1]; [2]] 0
     = inl (ValueError "not enough values to unpack (expected 3, got 2)").
Proof.
  apply (spectral_fit_generate_bath_errors unit echo_params tt None 0
           [1; 2] [1] [3; 4] [[1]; [2]]); simpl; lia.
Defined.

(** ** Malformed parameters of the correlation-function fit *)

(** [_generate_bath] of the correlation-function fit unpacks four rows
    when [n = 4] and three rows for every other [n]; with another number
    of rows for the real part it raises the [ValueError] of the
    unpacking. *)
Theorem correlation_fit_generate_bath_unpack_error (Qobj : Type)
        (self_Q : Qobj) (self_T : option R) (n : Z)
        (params_real params_imag : list (list R)) :
  List.length params_real <> (if (n =? 4)%Z then 4 else 3)%nat ->
  CorrelationFitter._generate_bath Qobj self_Q self_T
    params_real params_imag n
  = inl (unpack_error (if (n =? 4)%Z then 4 else 3)%nat params_real).
Proof.
  intros H. unfold CorrelationFitter._generate_bath.
  destruct (n =? 4)%Z;
    destruct params_real as [| p1 [| p2 [| p3 [| p4 [| p5 ps]]]]];
    simpl in H; try reflexivity; lia.
Qed.

Lemma correlation_fit_generate_bath_unpack_error_witness :
  CorrelationFitter._generate_bath unit tt None
    [[1]; [2]; [3]; [4]] [[1]; [2]; [3]; [4]] 3
  = inl (ValueError "too many values to unpack (expected 3)").
Proof.
  apply (correlation_fit_generate_bath_unpack_error unit tt None 3
           [[1]; [2]; [3]; [4]] [[1]; [2]; [3]; [4]]).
  simpl; lia.
Defined.

(** ** The Ohmic spectral density *)

(** With the exponent [s = 1] the spectral density of the Ohmic
    environment is [alpha w e^(- w / wc)] at every frequency [w > 0], for
    a cutoff [wc > 0]. *)
Theorem ohmic_spectral_density_s_1 (T alpha wc w : R) :
  0 < w -> 0 < wc ->
  OhmicEnvironment.spectral_density (OhmicEnvironment.new T alpha wc 1) w
  = alpha * w * exp (- (w / wc)).
Proof.
  intros Hw Hwc. unfold OhmicEnvironment.spectral_density, float_pow.
  cbn [OhmicEnvironment.alpha OhmicEnvironment.wc OhmicEnvironment.s].
  rewrite Rpower_1 by assumption.
  replace (1 - 1) with 0 by ring. rewrite Rpower_O by assumption.
  rewrite Rabs_right by lra.
  replace (- w / wc) with (- (w / wc)) by (unfold Rdiv; ring).
  field.
Qed.

Lemma ohmic_spectral_density_s_1_witness :
  OhmicEnvironment.spectral_density (OhmicEnvironment.new 1 2 3 1) 4
  = 2 * 4 * exp (- (4 / 3)).
Proof. apply (ohmic_spectral_density_s_1 1 2 3 4); lra. Defined.

Lemma meier_tannor_term_underdamped_witness :
  UnderDampedEnvironment.spectral_density
    (UnderDampedEnvironment.new 1 (sqrt 4) (2 * 1) (sqrt (3 ^ 2 + 1 ^ 2))) 2
  = SpectralFitter._meier_tannor_SD 2 [4] [1] [3].
Proof. apply (meier_tannor_term_underdamped 1 4 1 3 2). lra. Defined.
